(** * GPIO driver for the SiFive Freedom processor (drivers/gpio/gpio_sifive.c)

    A shallow embedding of the driver: the memory-mapped register block is a
    record of seventeen 32-bit words, every volatile access is an explicit
    load or store on it, and every function body is written in a small
    state monad with early return, statement for statement as in the C file.
    Stores and calls into the collaborators (callback handlers, the PLIC) are
    logged in a trace so that "which register was written" is observable. *)

From Stdlib Require Import ZArith List Bool Lia.
Import ListNotations.
Local Open Scope Z_scope.

(** ** Constants the driver takes from headers that are not part of the file

    [gpio.h], [errno.h], [soc.h] and the generated device-tree header only
    contribute numbers.  They are kept abstract; [zephyr_fe310] below is one
    assignment, used for the concrete instances at the end. *)

Class Headers := {
  GPIO_ACCESS_BY_PIN : Z;
  SIFIVE_PINMUX_PINS : Z;
  RISCV_MAX_GENERIC_IRQ : Z;
  EINVAL : Z;
  ENOTSUP : Z;
  GPIO_DIR_OUT : Z;
  GPIO_INT : Z;
  GPIO_INT_ACTIVE_HIGH : Z;
  GPIO_INT_EDGE : Z;
  GPIO_INT_DOUBLE_EDGE : Z;
  GPIO_POL_INV : Z;
  GPIO_PUD_MASK : Z;
  GPIO_PUD_PULL_UP : Z;
  GPIO_PUD_PULL_DOWN : Z;
  (* DT_SIFIVE_GPIO0_0_IRQ_0, used unconditionally by gpio_sifive_config0 *)
  DT_SIFIVE_GPIO0_0_IRQ_0 : Z;
  (* DT_SIFIVE_GPIO0_0_IRQ_n for the #ifdef-guarded IRQ_INIT(n): [None] when
     the macro is not defined *)
  DT_SIFIVE_GPIO0_0_IRQ : nat -> option Z
}.

(** An assignment after Zephyr's gpio.h and errno.h of the driver's time and
    the FE310 pin count: direction in bit 0, GPIO_INT in bit 1, active level
    in bit 2, edge in bit 5, double edge in bit 6, polarity in bit 7, pull
    mode in bits 8-9. *)
Definition zephyr_fe310 : Headers := {|
  GPIO_ACCESS_BY_PIN := 0;
  SIFIVE_PINMUX_PINS := 32;
  RISCV_MAX_GENERIC_IRQ := 11;
  EINVAL := 22;
  ENOTSUP := 35;
  GPIO_DIR_OUT := 1;
  GPIO_INT := 2;
  GPIO_INT_ACTIVE_HIGH := 4;
  GPIO_INT_EDGE := 32;
  GPIO_INT_DOUBLE_EDGE := 64;
  GPIO_POL_INV := 128;
  GPIO_PUD_MASK := 768;
  GPIO_PUD_PULL_UP := 256;
  GPIO_PUD_PULL_DOWN := 512;
  DT_SIFIVE_GPIO0_0_IRQ_0 := 7;
  DT_SIFIVE_GPIO0_0_IRQ := fun n => if (n <? 32)%nat then Some (7 + Z.of_nat n) else None
|}.

(** ** The register block *)

(* sifive GPIO register-set structure *)
Record gpio_sifive_t := {
  in_val : Z;
  in_en : Z;
  out_en : Z;
  out_val : Z;
  pue : Z;
  ds : Z;
  rise_ie : Z;
  rise_ip : Z;
  fall_ie : Z;
  fall_ip : Z;
  high_ie : Z;
  high_ip : Z;
  low_ie : Z;
  low_ip : Z;
  iof_en : Z;
  iof_sel : Z;
  invert : Z
}.

(** The fields as lvalues: what [gpio->field] designates. *)
Inductive reg :=
| IN_VAL | IN_EN | OUT_EN | OUT_VAL | PUE | DS
| RISE_IE | RISE_IP | FALL_IE | FALL_IP | HIGH_IE | HIGH_IP | LOW_IE | LOW_IP
| IOF_EN | IOF_SEL | INVERT.

Definition load (r : reg) (g : gpio_sifive_t) : Z :=
  match r with
  | IN_VAL => in_val g | IN_EN => in_en g | OUT_EN => out_en g
  | OUT_VAL => out_val g | PUE => pue g | DS => ds g
  | RISE_IE => rise_ie g | RISE_IP => rise_ip g
  | FALL_IE => fall_ie g | FALL_IP => fall_ip g
  | HIGH_IE => high_ie g | HIGH_IP => high_ip g
  | LOW_IE => low_ie g | LOW_IP => low_ip g
  | IOF_EN => iof_en g | IOF_SEL => iof_sel g | INVERT => invert g
  end.

(** Replace the content of one field. *)
Definition put (r : reg) (v : Z) (g : gpio_sifive_t) : gpio_sifive_t :=
  let f r' := match r, r' with
              | IN_VAL, IN_VAL | IN_EN, IN_EN | OUT_EN, OUT_EN
              | OUT_VAL, OUT_VAL | PUE, PUE | DS, DS
              | RISE_IE, RISE_IE | RISE_IP, RISE_IP
              | FALL_IE, FALL_IE | FALL_IP, FALL_IP
              | HIGH_IE, HIGH_IE | HIGH_IP, HIGH_IP
              | LOW_IE, LOW_IE | LOW_IP, LOW_IP
              | IOF_EN, IOF_EN | IOF_SEL, IOF_SEL | INVERT, INVERT => v
              | _, _ => load r' g
              end in
  {| in_val := f IN_VAL; in_en := f IN_EN; out_en := f OUT_EN;
     out_val := f OUT_VAL; pue := f PUE; ds := f DS;
     rise_ie := f RISE_IE; rise_ip := f RISE_IP;
     fall_ie := f FALL_IE; fall_ip := f FALL_IP;
     high_ie := f HIGH_IE; high_ip := f HIGH_IP;
     low_ie := f LOW_IE; low_ip := f LOW_IP;
     iof_en := f IOF_EN; iof_sel := f IOF_SEL; invert := f INVERT |}.

(** Equality test on register names. *)
Definition reg_eqb (r r' : reg) : bool :=
  match r, r' with
  | IN_VAL, IN_VAL | IN_EN, IN_EN | OUT_EN, OUT_EN
  | OUT_VAL, OUT_VAL | PUE, PUE | DS, DS
  | RISE_IE, RISE_IE | RISE_IP, RISE_IP
  | FALL_IE, FALL_IE | FALL_IP, FALL_IP
  | HIGH_IE, HIGH_IE | HIGH_IP, HIGH_IP
  | LOW_IE, LOW_IE | LOW_IP, LOW_IP
  | IOF_EN, IOF_EN | IOF_SEL, IOF_SEL | INVERT, INVERT => true
  | _, _ => false
  end.

(** The four interrupt-pending registers. *)
Definition is_pending (r : reg) : bool :=
  match r with
  | RISE_IP | FALL_IP | HIGH_IP | LOW_IP => true
  | _ => false
  end.

(** Modelled from the spec: the controller's reaction to a store, which is
    hardware and not part of the driver.  A pending register is
    write-1-to-clear ("cleared by software write of 1"): the bits written as 1
    are cleared, the others keep their value.  Every other register takes
    the stored value. *)
Definition hw_store (r : reg) (v : Z) (g : gpio_sifive_t) : gpio_sifive_t :=
  if is_pending r then put r (Z.land (load r g) (Z.lnot v)) g else put r v g.

(** Truncation to [unsigned int] / [u32_t]. *)
Definition u32 (x : Z) : Z := x mod 2 ^ 32.

(** Modelled from the spec: the macro BIT of misc/util.h, the single-bit mask
    of pin [n] ("bit i of each field corresponds to pin i"); in the header it
    is [1UL << n]. *)
Definition BIT (n : Z) : Z := Z.shiftl 1 n.

(** C truth of an integer expression. *)
Definition nz (x : Z) : bool := negb (x =? 0).

(** C's logical negation [!x]. *)
Definition lognot (x : Z) : Z := Z.b2z (x =? 0).

(** ** Collaborators and the observable trace *)

Inductive event :=
| EvStore (r : reg) (v : Z)            (* a store to a register of the block *)
| EvCallback (id : nat) (pins : Z)     (* cb->handler(port, cb, pins) *)
| EvIrqConnect (irq : Z)               (* IRQ_CONNECT *)
| EvIrqEnable (irq : Z)                (* irq_enable *)
| EvIrqDisable (irq : Z).              (* irq_disable *)

(** struct gpio_callback: the handler is application code; it is given by an
    identity (for the trace) and by what it does to the register block. *)
Record gpio_callback := {
  handler_id : nat;
  handler : Z -> gpio_sifive_t -> gpio_sifive_t;
  pin_mask : Z
}.

Record world := {
  gpio : gpio_sifive_t;      (* the block behind DEV_GPIO(dev) *)
  plic_irq : Z;              (* what riscv_plic_get_irq() returns *)
  trace : list event
}.

(** ** Statements: state with early return *)

(** A statement of a function returning [R]: it either falls through with a
    value of type [A] or leaves the function with [return r]. *)
Definition stmt (R A : Type) : Type := world -> (A + R) * world.

Definition ret {R A} (a : A) : stmt R A := fun w => (inl a, w).

Definition Return {R A} (r : R) : stmt R A := fun w => (inr r, w).

Definition bind {R A B} (m : stmt R A) (k : A -> stmt R B) : stmt R B :=
  fun w => match m w with
           | (inl a, w') => k a w'
           | (inr r, w') => (inr r, w')
           end.

Notation "x <- c1 ;; c2" := (bind c1 (fun x => c2))
  (at level 61, c1 at next level, right associativity).
Notation "c1 ;; c2" := (bind c1 (fun _ => c2))
  (at level 61, right associativity).

(** [if (c) s] with no else branch. *)
Definition when {R} (c : bool) (s : stmt R unit) : stmt R unit :=
  if c then s else ret tt.

(** Calling a function whose body is [m]. *)
Definition call {R} (m : stmt R R) (w : world) : R * world :=
  match m w with
  | (inl r, w') => (r, w')
  | (inr r, w') => (r, w')
  end.

(** A call as a statement of the calling function. *)
Definition call_stmt {R R'} (m : stmt R' R') : stmt R R' :=
  fun w => let (r, w') := call m w in (inl r, w').

Definition log {R} (e : event) : stmt R unit :=
  fun w => (inl tt, {| gpio := gpio w; plic_irq := plic_irq w;
                       trace := trace w ++ [e] |}).

(** Volatile read of [gpio->r]. *)
Definition rd {R} (r : reg) : stmt R Z := fun w => (inl (load r (gpio w)), w).

(** Volatile write [gpio->r = v]; the value is converted to unsigned int. *)
Definition wr {R} (r : reg) (v : Z) : stmt R unit :=
  fun w => (inl tt, {| gpio := hw_store r (u32 v) (gpio w);
                       plic_irq := plic_irq w;
                       trace := trace w ++ [EvStore r (u32 v)] |}).

(** [gpio->r &= v] and [gpio->r |= v]. *)
Definition and_assign {R} (r : reg) (v : Z) : stmt R unit :=
  x <- rd r ;; wr r (Z.land x v).

Definition or_assign {R} (r : reg) (v : Z) : stmt R unit :=
  x <- rd r ;; wr r (Z.lor x v).

Notation "r '&=' v" := (and_assign r v) (at level 60, no associativity).
Notation "r '|=' v" := (or_assign r v) (at level 60, no associativity).

Definition riscv_plic_get_irq {R} : stmt R Z := fun w => (inl (plic_irq w), w).

Definition irq_enable {R} (irq : Z) : stmt R unit := log (EvIrqEnable irq).

Definition irq_disable {R} (irq : Z) : stmt R unit := log (EvIrqDisable irq).

(** Modelled from the spec: gpio_fire_callbacks of gpio_utils.h, which is not
    part of the driver file: "invoke every registered callback whose stored
    bitmask intersects the pin mask, passing the triggering pin mask".  The
    list is walked in order. *)
Fixpoint gpio_fire_callbacks {R} (list : list gpio_callback) (pins : Z)
  : stmt R unit :=
  match list with
  | [] => ret tt
  | cb :: rest =>
      when (nz (Z.land (pin_mask cb) pins))
        (log (EvCallback (handler_id cb) pins) ;;
         fun w => (inl tt, {| gpio := handler cb pins (gpio w);
                              plic_irq := plic_irq w;
                              trace := trace w |})) ;;
      gpio_fire_callbacks rest pins
  end.

(** ** The driver *)

Section Driver.

Context {H : Headers}.

Record gpio_sifive_config_t := {
  gpio_irq_base : Z;
  gpio_cfg_func : stmt unit unit
}.

Record gpio_sifive_data := {
  (* list of callbacks *)
  cb : list gpio_callback
}.

Record device := {
  config_info : gpio_sifive_config_t;
  driver_data : gpio_sifive_data
}.

Definition gpio_sifive_irq_handler (dev : device) : stmt unit unit :=
  let data := driver_data dev in
  let cfg := config_info dev in
  (* Get the pin number generating the interrupt.  The subtraction is done
     in u32_t; [int pin_mask] is kept as its 32-bit pattern, which is what
     the uses below (& with a register, store, u32_t argument) see. *)
  irq <- riscv_plic_get_irq ;;
  let pin_mask :=
    u32 (Z.shiftl 1 (u32 (irq - u32 (gpio_irq_base cfg - RISCV_MAX_GENERIC_IRQ)))) in
  (* Call the corresponding callback registered for the pin *)
  gpio_fire_callbacks (cb data) pin_mask ;;
  (* Write to either the rise_ip, fall_ip, high_ip or low_ip registers *)
  rise <- rd RISE_IP ;;
  if nz (Z.land rise pin_mask) then wr RISE_IP pin_mask
  else
    fall <- rd FALL_IP ;;
    if nz (Z.land fall pin_mask) then wr FALL_IP pin_mask
    else
      high <- rd HIGH_IP ;;
      if nz (Z.land high pin_mask) then wr HIGH_IP pin_mask
      else
        low <- rd LOW_IP ;;
        if nz (Z.land low pin_mask) then wr LOW_IP pin_mask
        else ret tt.

Definition gpio_sifive_config (access_op pin flags : Z) : stmt Z Z :=
  when (negb (access_op =? GPIO_ACCESS_BY_PIN)) (Return (- ENOTSUP)) ;;
  when (pin >=? SIFIVE_PINMUX_PINS) (Return (- EINVAL)) ;;
  (* Configure gpio direction *)
  (if nz (Z.land flags GPIO_DIR_OUT) then
     IN_EN &= Z.lnot (BIT pin) ;;
     OUT_EN |= BIT pin ;;
     (* Account for polarity only for GPIO_DIR_OUT. *)
     if nz (Z.land flags GPIO_POL_INV) then INVERT |= BIT pin
     else INVERT &= Z.lnot (BIT pin)
   else
     OUT_EN &= Z.lnot (BIT pin) ;;
     IN_EN |= BIT pin ;;
     (* Polarity inversion is not supported for input gpio *)
     when (nz (Z.land flags GPIO_POL_INV)) (Return (- EINVAL)) ;;
     (* Only Pull-up can be enabled or disabled. *)
     when (Z.land flags GPIO_PUD_MASK =? GPIO_PUD_PULL_DOWN)
       (Return (- EINVAL)) ;;
     if Z.land flags GPIO_PUD_MASK =? GPIO_PUD_PULL_UP then PUE |= BIT pin
     else PUE &= Z.lnot (BIT pin)) ;;
  (* Configure interrupt if GPIO_INT is set. *)
  when (negb (nz (Z.land flags GPIO_INT))) (Return 0) ;;
  (* Interrupt cannot be set for GPIO_DIR_OUT *)
  when (nz (Z.land flags GPIO_DIR_OUT)) (Return (- EINVAL)) ;;
  (* Edge or Level triggered ? *)
  (if nz (Z.land flags GPIO_INT_EDGE) then
     HIGH_IE &= Z.lnot (BIT pin) ;;
     LOW_IE &= Z.lnot (BIT pin) ;;
     (* Rising Edge, Falling Edge or Double Edge ? *)
     if nz (Z.land flags GPIO_INT_DOUBLE_EDGE) then
       RISE_IE |= BIT pin ;;
       FALL_IE |= BIT pin
     else if nz (Z.land flags GPIO_INT_ACTIVE_HIGH) then
       RISE_IE |= BIT pin ;;
       FALL_IE &= Z.lnot (BIT pin)
     else
       RISE_IE &= Z.lnot (BIT pin) ;;
       FALL_IE |= BIT pin
   else
     RISE_IE &= Z.lnot (BIT pin) ;;
     FALL_IE &= Z.lnot (BIT pin) ;;
     (* Level High ? *)
     if nz (Z.land flags GPIO_INT_ACTIVE_HIGH) then
       HIGH_IE |= BIT pin ;;
       LOW_IE &= Z.lnot (BIT pin)
     else
       HIGH_IE &= Z.lnot (BIT pin) ;;
       LOW_IE |= BIT pin) ;;
  Return 0.

Definition gpio_sifive_write (access_op pin value : Z) : stmt Z Z :=
  when (negb (access_op =? GPIO_ACCESS_BY_PIN)) (Return (- ENOTSUP)) ;;
  when (pin >=? SIFIVE_PINMUX_PINS) (Return (- EINVAL)) ;;
  (* If pin is configured as input return with error *)
  en <- rd IN_EN ;;
  when (nz (Z.land en (BIT pin))) (Return (- EINVAL)) ;;
  (if nz value then OUT_VAL |= BIT pin
   else OUT_VAL &= Z.lnot (BIT pin)) ;;
  Return 0.

(** [u32_t *value] is passed as the content of the pointee; the function
    returns its status together with the pointee's content on return. *)
Definition gpio_sifive_read (access_op pin value : Z) : stmt (Z * Z) (Z * Z) :=
  when (negb (access_op =? GPIO_ACCESS_BY_PIN)) (Return (- ENOTSUP, value)) ;;
  when (pin >=? SIFIVE_PINMUX_PINS) (Return (- EINVAL, value)) ;;
  en <- rd OUT_EN ;;
  (* read from out_val if configured as output, otherwise from in_val *)
  value' <- (if nz (Z.land en (BIT pin)) then
               v <- rd OUT_VAL ;; ret (lognot (lognot (Z.land v (BIT pin))))
             else
               v <- rd IN_VAL ;; ret (lognot (lognot (Z.land v (BIT pin))))) ;;
  Return (0, value').

Definition gpio_sifive_enable_callback (dev : device) (access_op pin : Z)
  : stmt Z Z :=
  let cfg := config_info dev in
  when (negb (access_op =? GPIO_ACCESS_BY_PIN)) (Return (- ENOTSUP)) ;;
  when (pin >=? SIFIVE_PINMUX_PINS) (Return (- EINVAL)) ;;
  (* Enable interrupt for the pin at PLIC level *)
  irq_enable (u32 (gpio_irq_base cfg + pin)) ;;
  Return 0.

Definition gpio_sifive_disable_callback (dev : device) (access_op pin : Z)
  : stmt Z Z :=
  let cfg := config_info dev in
  when (negb (access_op =? GPIO_ACCESS_BY_PIN)) (Return (- ENOTSUP)) ;;
  when (pin >=? SIFIVE_PINMUX_PINS) (Return (- EINVAL)) ;;
  (* Disable interrupt for the pin at PLIC level *)
  irq_disable (u32 (gpio_irq_base cfg + pin)) ;;
  Return 0.

Definition gpio_sifive_init (dev : device) : stmt Z Z :=
  let cfg := config_info dev in
  (* Ensure that all gpio registers are reset to 0 initially *)
  wr IN_EN 0 ;;
  wr OUT_EN 0 ;;
  wr PUE 0 ;;
  wr RISE_IE 0 ;;
  wr FALL_IE 0 ;;
  wr HIGH_IE 0 ;;
  wr LOW_IE 0 ;;
  wr INVERT 0 ;;
  (* Setup IRQ handler for each gpio pin *)
  call_stmt (gpio_cfg_func cfg) ;;
  Return 0.

(** IRQ_INIT(n), present only when DT_SIFIVE_GPIO0_0_IRQ_n is defined. *)
Definition IRQ_INIT (n : nat) : stmt unit unit :=
  match DT_SIFIVE_GPIO0_0_IRQ n with
  | Some irq => log (EvIrqConnect (RISCV_MAX_GENERIC_IRQ + irq))
  | None => ret tt
  end.

Definition gpio_sifive_cfg_0 : stmt unit unit :=
  fold_right (fun n k => IRQ_INIT n ;; k) (ret tt) (seq 0 32).

Definition gpio_sifive_config0 : gpio_sifive_config_t := {|
  gpio_irq_base := RISCV_MAX_GENERIC_IRQ + DT_SIFIVE_GPIO0_0_IRQ_0;
  gpio_cfg_func := gpio_sifive_cfg_0
|}.

Definition gpio_sifive_0 (gpio_sifive_data0 : gpio_sifive_data) : device := {|
  config_info := gpio_sifive_config0;
  driver_data := gpio_sifive_data0
|}.

End Driver.

(** ** Vocabulary of the statements *)

(** Bit [pin] of a register word: the state of that pin in the register. *)
Definition pin_bit (x pin : Z) : bool := Z.testbit x pin.

(** Every bit that belongs to a pin other than [pin] is the same in [g'] as
    in [g], in every register. *)
Definition other_pins_kept (pin : Z) (g g' : gpio_sifive_t) : Prop :=
  forall r i, 0 <= i < 32 -> i <> pin ->
    pin_bit (load r g') i = pin_bit (load r g) i.

(** The stores of a trace, in program order. *)
Definition stores (t : list event) : list (reg * Z) :=
  flat_map (fun e => match e with EvStore r v => [(r, v)] | _ => [] end) t.

(** The word [gpio_sifive_write] stores into out_val. *)
Definition written_out_val (g : gpio_sifive_t) (pin value : Z) : Z :=
  if nz value then u32 (Z.lor (out_val g) (BIT pin))
  else u32 (Z.land (out_val g) (Z.lnot (BIT pin))).

(** A block with every register at zero, and a world around it. *)
Definition gpio_zero : gpio_sifive_t := {|
  in_val := 0; in_en := 0; out_en := 0; out_val := 0; pue := 0; ds := 0;
  rise_ie := 0; rise_ip := 0; fall_ie := 0; fall_ip := 0;
  high_ie := 0; high_ip := 0; low_ie := 0; low_ip := 0;
  iof_en := 0; iof_sel := 0; invert := 0
|}.

Definition world_of (g : gpio_sifive_t) (irq : Z) : world :=
  {| gpio := g; plic_irq := irq; trace := [] |}.

(** The eight configuration registers that [gpio_sifive_init] resets. *)
Definition config_regs : list reg :=
  [IN_EN; OUT_EN; PUE; RISE_IE; FALL_IE; HIGH_IE; LOW_IE; INVERT].

(** The bit [gpio_sifive_read] hands back for a pin. *)
Definition read_bit (g : gpio_sifive_t) (pin : Z) : bool :=
  if pin_bit (out_en g) pin then pin_bit (out_val g) pin
  else pin_bit (in_val g) pin.

(** The block [gpio_sifive_init] leaves behind. *)
Definition init_gpio (g : gpio_sifive_t) : gpio_sifive_t := {|
  in_val := in_val g; in_en := 0; out_en := 0; out_val := out_val g;
  pue := 0; ds := ds g;
  rise_ie := 0; rise_ip := rise_ip g; fall_ie := 0; fall_ip := fall_ip g;
  high_ie := 0; high_ip := high_ip g; low_ie := 0; low_ip := low_ip g;
  iof_en := iof_en g; iof_sel := iof_sel g; invert := 0
|}.

(** A statement that leaves the bits of all pins other than [pin] alone. *)
Definition keeps_other_pins {R A} (pin : Z) (m : stmt R A) : Prop :=
  forall w, other_pins_kept pin (gpio w) (gpio (snd (m w))).

(** The direction requested by a flag word, as the driver reads it. *)
Definition dir_out `{Headers} (flags : Z) : bool := nz (Z.land flags GPIO_DIR_OUT).

(** Between [w] and [w'] the registers of [l] were stored to, in that order,
    and no others. *)
Definition written_regs (w w' : world) (l : list reg) : Prop :=
  exists t, trace w' = trace w ++ t /\ map fst (stores t) = l.

(** Some edge class, respectively some level class, is armed for the pin. *)
Definition edge_armed (g : gpio_sifive_t) (pin : Z) : bool :=
  pin_bit (rise_ie g) pin || pin_bit (fall_ie g) pin.

Definition level_armed (g : gpio_sifive_t) (pin : Z) : bool :=
  pin_bit (high_ie g) pin || pin_bit (low_ie g) pin.

(** The callbacks of a list whose mask meets [pins]. *)
Definition matching (pins : Z) (cbs : list gpio_callback) : list gpio_callback :=
  filter (fun c => nz (Z.land (pin_mask c) pins)) cbs.

(** The world once the matching callbacks have run, in list order. *)
Definition after_callbacks (cbs : list gpio_callback) (pins : Z) (w : world)
  : world :=
  {| gpio := fold_left (fun g c => handler c pins g) (matching pins cbs) (gpio w);
     plic_irq := plic_irq w;
     trace := trace w
              ++ map (fun c => EvCallback (handler_id c) pins) (matching pins cbs) |}.

(** The dispatcher's acknowledge step in the words of its description: the
    first of rise, fall, high, low (in that priority order) whose pending
    bit is set for the pin, if any. *)
Definition first_pending (g : gpio_sifive_t) (pin : Z) : option reg :=
  if pin_bit (rise_ip g) pin then Some RISE_IP
  else if pin_bit (fall_ip g) pin then Some FALL_IP
  else if pin_bit (high_ip g) pin then Some HIGH_IP
  else if pin_bit (low_ip g) pin then Some LOW_IP
  else None.

(** Acknowledging register [r] for the pin: one store of the pin's mask. *)
Definition acknowledge (r : reg) (pin : Z) (w : world) : world :=
  {| gpio := hw_store r (BIT pin) (gpio w);
     plic_irq := plic_irq w;
     trace := trace w ++ [EvStore r (BIT pin)] |}.

(** Sample data: pin 3 with its rise-pending bit set, pin 3 pending nowhere,
    and a device with one callback on pin 3 and one on pin 0. *)
Definition gpio_rise_pending_3 : gpio_sifive_t := put RISE_IP 8 gpio_zero.

Definition sample_callbacks : list gpio_callback :=
  [ {| handler_id := 1; handler := fun _ g => g; pin_mask := 8 |};
    {| handler_id := 2; handler := fun _ g => g; pin_mask := 1 |} ].

(** The flag combinations [gpio_sifive_config] refuses, as it tests them. *)
Definition invalid_combination `{Headers} (flags : Z) : bool :=
  if dir_out flags then nz (Z.land flags GPIO_INT)
  else nz (Z.land flags GPIO_POL_INV)
       || (Z.land flags GPIO_PUD_MASK =? GPIO_PUD_PULL_DOWN).

(** A statement that leaves register [r] alone. *)
Definition keeps_reg {R A} (r : reg) (m : stmt R A) : Prop :=
  forall w, load r (gpio (snd (m w))) = load r (gpio w).

(** The registers that are not configuration: pin values, drive strength,
    the four pending registers and the IO-function pair. *)
Definition other_regs : list reg :=
  [IN_VAL; OUT_VAL; DS; RISE_IP; FALL_IP; HIGH_IP; LOW_IP; IOF_EN; IOF_SEL].

(** Callbacks whose handlers leave the register block as it is. *)
Definition quiet_callbacks (cbs : list gpio_callback) : Prop :=
  forall c, In c cbs -> forall pins g, handler c pins g = g.

(** A read-modify-write on bit [pin] of a configuration register: [(r, true)]
    is [gpio->r |= BIT(pin)], [(r, false)] is [gpio->r &= ~BIT(pin)]. *)
Definition apply_op (pin : Z) (g : gpio_sifive_t) (op : reg * bool)
  : gpio_sifive_t :=
  put (fst op)
    (u32 (if snd op then Z.lor (load (fst op) g) (BIT pin)
          else Z.land (load (fst op) g) (Z.lnot (BIT pin)))) g.

Definition apply_ops (pin : Z) (ops : list (reg * bool)) (g : gpio_sifive_t)
  : gpio_sifive_t :=
  fold_left (apply_op pin) ops g.

(** The read-modify-writes [gpio_sifive_config] performs for a flag word, in
    program order (used to compare runs of the function with each other). *)
Definition config_ops `{Headers} (flags : Z) : list (reg * bool) :=
  (if dir_out flags then
     [(IN_EN, false); (OUT_EN, true);
      (INVERT, nz (Z.land flags GPIO_POL_INV))]
   else
     [(OUT_EN, false); (IN_EN, true)]
     ++ (if invalid_combination flags then []
         else [(PUE, Z.land flags GPIO_PUD_MASK =? GPIO_PUD_PULL_UP)]))
  ++ (if invalid_combination flags then []
      else if negb (nz (Z.land flags GPIO_INT)) then []
      else if nz (Z.land flags GPIO_INT_EDGE) then
        [(HIGH_IE, false); (LOW_IE, false)]
        ++ (if nz (Z.land flags GPIO_INT_DOUBLE_EDGE) then
              [(RISE_IE, true); (FALL_IE, true)]
            else [(RISE_IE, nz (Z.land flags GPIO_INT_ACTIVE_HIGH));
                  (FALL_IE, negb (nz (Z.land flags GPIO_INT_ACTIVE_HIGH)))])
      else
        [(RISE_IE, false); (FALL_IE, false);
         (HIGH_IE, nz (Z.land flags GPIO_INT_ACTIVE_HIGH));
         (LOW_IE, negb (nz (Z.land flags GPIO_INT_ACTIVE_HIGH)))]).

(** Pin 3 pending in both edge classes. *)
Definition gpio_rise_fall_pending_3 : gpio_sifive_t :=
  put FALL_IP 8 (put RISE_IP 8 gpio_zero).

(** The block after a list of stores, issued in order. *)
Definition run_stores (l : list (reg * Z)) (g : gpio_sifive_t) : gpio_sifive_t :=
  fold_left (fun g0 s => hw_store (fst s) (snd s) g0) l g.

(** Every store of the list, taken at the moment it is issued, writes a word
    that differs from the register's content at that moment in no bit other
    than bit [pin]. *)
Fixpoint single_bit_stores (pin : Z) (g : gpio_sifive_t) (l : list (reg * Z))
  : Prop :=
  match l with
  | [] => True
  | s :: l' =>
      (forall i, 0 <= i < 32 -> i <> pin ->
         pin_bit (snd s) i = pin_bit (load (fst s) g) i) /\
      single_bit_stores pin (hw_store (fst s) (snd s) g) l'
  end.

(** A statement whose only effects are stores, each of them changing at most
    bit [pin] of the register it writes. *)
Definition rmw_on_pin {R A} (pin : Z) (m : stmt R A) : Prop :=
  forall w, exists l,
    trace (snd (m w)) = trace w ++ map (fun s => EvStore (fst s) (snd s)) l /\
    single_bit_stores pin (gpio w) l /\
    gpio (snd (m w)) = run_stores l (gpio w).

(** ** Bit-level facts *)

Lemma testbit_BIT (n i : Z) :
  0 <= n -> Z.testbit (BIT n) i = (i =? n).
Proof.
  intros Hn. unfold BIT. rewrite Z.shiftl_1_l, Z.pow2_bits_eqb by assumption.
  apply Z.eqb_sym.
Qed.

Lemma testbit_u32 (x i : Z) :
  0 <= i < 32 -> Z.testbit (u32 x) i = Z.testbit x i.
Proof.
  intros Hi. unfold u32. apply Z.mod_pow2_bits_low. lia.
Qed.

Lemma u32_small (x : Z) : 0 <= x < 2 ^ 32 -> u32 x = x.
Proof. intros Hx. unfold u32. apply Z.mod_small. exact Hx. Qed.

Lemma BIT_range (n : Z) : 0 <= n < 32 -> 0 <= BIT n < 2 ^ 32.
Proof.
  intros Hn. unfold BIT. rewrite Z.shiftl_1_l. split.
  - apply Z.pow_nonneg. lia.
  - apply Z.pow_lt_mono_r; lia.
Qed.

(** [x & BIT(n)] is non-zero exactly when bit [n] of [x] is set. *)
Lemma nz_land_BIT (x n : Z) :
  0 <= n -> nz (Z.land x (BIT n)) = pin_bit x n.
Proof.
  intros Hn. unfold nz, pin_bit.
  destruct (Z.testbit x n) eqn:Hb.
  - destruct (Z.eqb_spec (Z.land x (BIT n)) 0) as [E | E]; [ | reflexivity ].
    assert (Hc : Z.testbit (Z.land x (BIT n)) n = true).
    { rewrite Z.land_spec, Hb, testbit_BIT, Z.eqb_refl by assumption.
      reflexivity. }
    rewrite E, Z.bits_0 in Hc. discriminate.
  - destruct (Z.eqb_spec (Z.land x (BIT n)) 0) as [E | E]; [ reflexivity | ].
    exfalso. apply E. apply Z.bits_inj'. intros i Hi.
    rewrite Z.land_spec, testbit_BIT, Z.bits_0 by assumption.
    destruct (Z.eqb_spec i n) as [-> | _].
    + rewrite Hb. reflexivity.
    + apply andb_false_r.
Qed.

(** The word stored by [r |= BIT(p)] and by [r &= ~BIT(p)], bit by bit. *)
Lemma testbit_set (x p i : Z) :
  0 <= p -> 0 <= i < 32 ->
  pin_bit (u32 (Z.lor x (BIT p))) i = (pin_bit x i || (i =? p)).
Proof.
  intros Hp Hi. unfold pin_bit. rewrite testbit_u32, Z.lor_spec, testbit_BIT by assumption.
  reflexivity.
Qed.

Lemma testbit_clear (x p i : Z) :
  0 <= p -> 0 <= i < 32 ->
  pin_bit (u32 (Z.land x (Z.lnot (BIT p)))) i
  = (pin_bit x i && negb (i =? p)).
Proof.
  intros Hp Hi. unfold pin_bit.
  rewrite testbit_u32, Z.land_spec, Z.lnot_spec, testbit_BIT by lia.
  reflexivity.
Qed.

Lemma lognot_lognot (x : Z) : lognot (lognot x) = Z.b2z (nz x).
Proof. unfold lognot, nz. destruct (x =? 0); reflexivity. Qed.

(** ** Register-block facts *)

Lemma reg_eqb_spec (r r' : reg) : reflect (r = r') (reg_eqb r r').
Proof. destruct r, r'; constructor; congruence. Qed.

Lemma load_put (r r' : reg) (v : Z) (g : gpio_sifive_t) :
  load r' (put r v g) = if reg_eqb r r' then v else load r' g.
Proof. destruct r, r'; reflexivity. Qed.

Lemma load_hw_store_other (r r' : reg) (v : Z) (g : gpio_sifive_t) :
  r <> r' -> load r' (hw_store r v g) = load r' g.
Proof.
  intros Hne. unfold hw_store.
  destruct (is_pending r); rewrite load_put;
    destruct (reg_eqb_spec r r'); congruence.
Qed.

Lemma load_hw_store_same (r : reg) (v : Z) (g : gpio_sifive_t) :
  load r (hw_store r v g)
  = if is_pending r then Z.land (load r g) (Z.lnot v) else v.
Proof.
  unfold hw_store.
  destruct (is_pending r); rewrite load_put;
    destruct (reg_eqb_spec r r); congruence.
Qed.

(** ** Running statements *)

Ltac run :=
  cbv beta iota zeta delta
    [call call_stmt bind when and_assign or_assign rd wr log ret Return
     fst snd gpio plic_irq trace];
  cbn [negb].

Ltac regs :=
  cbv beta iota zeta delta
    [hw_store is_pending put load in_val in_en out_en out_val pue ds
     rise_ie rise_ip fall_ie fall_ip high_ie high_ip low_ie low_ip
     iof_en iof_sel invert].

Section DriverProofs.

Context {H : Headers}.

Lemma geb_false (a b : Z) : a < b -> (a >=? b) = false.
Proof. intros Hlt. rewrite Z.geb_leb. apply Z.leb_gt. exact Hlt. Qed.

Lemma geb_true (a b : Z) : b <= a -> (a >=? b) = true.
Proof. intros Hle. rewrite Z.geb_leb. apply Z.leb_le. exact Hle. Qed.

Lemma stores_app (t u : list event) : stores (t ++ u) = stores t ++ stores u.
Proof. unfold stores. apply flat_map_app. Qed.

(** *** gpio_sifive_write and gpio_sifive_read, evaluated *)

Lemma gpio_sifive_write_eval (w : world) (pin value : Z) :
  0 <= pin < SIFIVE_PINMUX_PINS ->
  call (gpio_sifive_write GPIO_ACCESS_BY_PIN pin value) w
  = if pin_bit (in_en (gpio w)) pin then (- EINVAL, w)
    else (0, {| gpio := put OUT_VAL (written_out_val (gpio w) pin value) (gpio w);
                plic_irq := plic_irq w;
                trace := trace w
                         ++ [EvStore OUT_VAL (written_out_val (gpio w) pin value)] |}).
Proof.
  intros Hpin. destruct w as [g irq t].
  unfold gpio_sifive_write, written_out_val. run.
  rewrite Z.eqb_refl, geb_false by lia. run.
  cbn [load]. rewrite nz_land_BIT by lia.
  destruct (pin_bit (in_en g) pin); [ reflexivity | ].
  destruct (nz value); reflexivity.
Qed.

Lemma gpio_sifive_write_range (w : world) (pin value : Z) :
  SIFIVE_PINMUX_PINS <= pin ->
  call (gpio_sifive_write GPIO_ACCESS_BY_PIN pin value) w = (- EINVAL, w).
Proof.
  intros Hpin. unfold gpio_sifive_write. run.
  rewrite Z.eqb_refl, geb_true by lia. reflexivity.
Qed.

Lemma written_out_val_bit (g : gpio_sifive_t) (pin value i : Z) :
  0 <= pin -> 0 <= i < 32 ->
  pin_bit (written_out_val g pin value) i
  = if i =? pin then nz value else pin_bit (out_val g) i.
Proof.
  intros Hpin Hi. unfold written_out_val.
  destruct (nz value).
  - rewrite testbit_set by assumption.
    destruct (i =? pin); [ apply orb_true_r | apply orb_false_r ].
  - rewrite testbit_clear by assumption.
    destruct (i =? pin); [ apply andb_false_r | apply andb_true_r ].
Qed.

Lemma gpio_sifive_read_eval (w : world) (pin value : Z) :
  0 <= pin < SIFIVE_PINMUX_PINS ->
  call (gpio_sifive_read GPIO_ACCESS_BY_PIN pin value) w
  = ((0, Z.b2z (read_bit (gpio w) pin)), w).
Proof.
  intros Hpin. destruct w as [g irq t].
  unfold gpio_sifive_read, read_bit. run.
  rewrite Z.eqb_refl, geb_false by lia. run.
  cbn [load]. rewrite nz_land_BIT by lia.
  destruct (pin_bit (out_en g) pin); run; cbn [load];
    rewrite lognot_lognot, nz_land_BIT by lia; reflexivity.
Qed.

(** *** gpio_sifive_init, evaluated *)

Lemma gpio_sifive_cfg_0_eval (w : world) :
  exists t, stores t = [] /\
    gpio_sifive_cfg_0 w
    = (inl tt, {| gpio := gpio w; plic_irq := plic_irq w;
                  trace := trace w ++ t |}).
Proof.
  unfold gpio_sifive_cfg_0. generalize (seq 0 32). intros l. revert w.
  induction l as [ | n l IH ]; intros w.
  - exists []. rewrite app_nil_r. destruct w. split; reflexivity.
  - cbn [fold_right]. unfold bind at 1. unfold IRQ_INIT at 1.
    destruct (DT_SIFIVE_GPIO0_0_IRQ n) as [ line | ].
    + unfold log at 1. cbv beta iota.
      destruct (IH {| gpio := gpio w; plic_irq := plic_irq w;
                      trace := trace w
                               ++ [EvIrqConnect (RISCV_MAX_GENERIC_IRQ + line)] |})
        as (t & Ht & E).
      exists (EvIrqConnect (RISCV_MAX_GENERIC_IRQ + line) :: t).
      split; [ exact Ht | ].
      rewrite E. cbn [gpio plic_irq trace]. rewrite <- app_assoc. reflexivity.
    + unfold ret at 1. cbv beta iota. apply IH.
Qed.

Lemma gpio_sifive_init_eval (d0 : gpio_sifive_data) (w : world) :
  exists t, stores t = [] /\
    call (gpio_sifive_init (gpio_sifive_0 d0)) w
    = (0, {| gpio := init_gpio (gpio w); plic_irq := plic_irq w;
             trace := trace w
                      ++ map (fun r => EvStore r 0) config_regs ++ t |}).
Proof.
  destruct w as [g irq t0].
  unfold gpio_sifive_init, gpio_sifive_0, gpio_sifive_config0.
  cbn [config_info gpio_cfg_func]. run. change (u32 0) with 0.
  match goal with
  | |- context [gpio_sifive_cfg_0 ?w8] =>
      destruct (gpio_sifive_cfg_0_eval w8) as (t & Ht & E); rewrite E
  end.
  exists t. split; [ exact Ht | ].
  cbn [gpio plic_irq trace]. regs.
  repeat rewrite <- app_assoc. reflexivity.
Qed.

(** *** Frame of the read-modify-write statements *)

Lemma kept_refl (pin : Z) (g : gpio_sifive_t) : other_pins_kept pin g g.
Proof. intros r i _ _. reflexivity. Qed.

Lemma kept_trans (pin : Z) (g1 g2 g3 : gpio_sifive_t) :
  other_pins_kept pin g1 g2 -> other_pins_kept pin g2 g3 ->
  other_pins_kept pin g1 g3.
Proof.
  intros H12 H23 r i Hi Hne. rewrite (H23 r i Hi Hne). apply H12; assumption.
Qed.

Lemma keeps_ret {R A} (pin : Z) (a : A) : keeps_other_pins pin (@ret R A a).
Proof. intros w. apply kept_refl. Qed.

Lemma keeps_Return {R A} (pin : Z) (r : R) :
  keeps_other_pins pin (@Return R A r).
Proof. intros w. apply kept_refl. Qed.

Lemma keeps_bind {R A B} (pin : Z) (m : stmt R A) (k : A -> stmt R B) :
  keeps_other_pins pin m -> (forall a, keeps_other_pins pin (k a)) ->
  keeps_other_pins pin (bind m k).
Proof.
  intros Hm Hk w. unfold bind. specialize (Hm w).
  destruct (m w) as [[a | r] w1]; cbn [snd] in *.
  - eapply kept_trans; [ exact Hm | apply Hk ].
  - exact Hm.
Qed.

Lemma keeps_when {R} (pin : Z) (c : bool) (s : stmt R unit) :
  keeps_other_pins pin s -> keeps_other_pins pin (when c s).
Proof. intros Hs. destruct c; [ exact Hs | apply keeps_ret ]. Qed.

Lemma keeps_or_assign {R} (pin : Z) (r : reg) :
  0 <= pin -> is_pending r = false ->
  keeps_other_pins pin (@or_assign R r (BIT pin)).
Proof.
  intros Hpin Hr w r' i Hi Hne. unfold or_assign, bind, rd, wr.
  cbn [snd gpio]. unfold hw_store. rewrite Hr, load_put.
  destruct (reg_eqb_spec r r') as [ <- | _ ]; [ | reflexivity ].
  rewrite testbit_set by assumption.
  destruct (Z.eqb_spec i pin); [ contradiction | apply orb_false_r ].
Qed.

Lemma keeps_and_assign {R} (pin : Z) (r : reg) :
  0 <= pin -> is_pending r = false ->
  keeps_other_pins pin (@and_assign R r (Z.lnot (BIT pin))).
Proof.
  intros Hpin Hr w r' i Hi Hne. unfold and_assign, bind, rd, wr.
  cbn [snd gpio]. unfold hw_store. rewrite Hr, load_put.
  destruct (reg_eqb_spec r r') as [ <- | _ ]; [ | reflexivity ].
  rewrite testbit_clear by assumption.
  destruct (Z.eqb_spec i pin); [ contradiction | apply andb_true_r ].
Qed.

Lemma snd_call {R} (m : stmt R R) (w : world) : snd (call m w) = snd (m w).
Proof. unfold call. destruct (m w) as [[r | r] w1]; reflexivity. Qed.

Ltac keeps_step :=
  lazymatch goal with
  | |- keeps_other_pins _ (or_assign _ _) =>
      apply keeps_or_assign; [ assumption | reflexivity ]
  | |- keeps_other_pins _ (and_assign _ _) =>
      apply keeps_and_assign; [ assumption | reflexivity ]
  | |- keeps_other_pins _ (when _ _) => apply keeps_when
  | |- keeps_other_pins _ (Return _) => apply keeps_Return
  | |- keeps_other_pins _ (ret _) => apply keeps_ret
  | |- keeps_other_pins _ (bind _ _) => apply keeps_bind; [ | intros ? ]
  | |- keeps_other_pins _ (if ?c then _ else _) => destruct c
  end.

Lemma gpio_sifive_config_keeps (access_op pin flags : Z) :
  0 <= pin ->
  keeps_other_pins pin (gpio_sifive_config access_op pin flags).
Proof.
  intros Hpin. unfold gpio_sifive_config. repeat keeps_step.
Qed.

(** *** gpio_sifive_config, path by path *)

Ltac config_paths :=
  unfold gpio_sifive_config; run;
  rewrite Z.eqb_refl, geb_false by lia; run;
  repeat match goal with
         | |- context [if negb ?c then _ else _] =>
             let E := fresh "E" in destruct c eqn:E; run
         | |- context [if ?c then _ else _] =>
             let E := fresh "E" in destruct c eqn:E; run
         end.

Ltac bits :=
  regs;
  repeat first [ rewrite testbit_set by lia | rewrite testbit_clear by lia ];
  rewrite ?Z.eqb_refl, ?orb_true_r, ?andb_false_r;
  cbn [negb andb orb].

(** The direction bits of the pin after any call that passes the two
    guards. *)
Lemma gpio_sifive_config_direction_bits (w : world) (pin flags : Z) :
  SIFIVE_PINMUX_PINS <= 32 -> 0 <= pin < SIFIVE_PINMUX_PINS ->
  let g' := gpio (snd (call (gpio_sifive_config GPIO_ACCESS_BY_PIN pin flags) w)) in
  pin_bit (in_en g') pin = negb (dir_out flags) /\
  pin_bit (out_en g') pin = dir_out flags.
Proof.
  intros Hfit Hpin g'. subst g'. destruct w as [g irq t]. unfold dir_out.
  config_paths.
  all: split; bits; reflexivity.
Qed.

Ltac show_written :=
  unfold written_regs; cbn [trace]; eexists;
  split; [ repeat rewrite <- app_assoc; reflexivity | reflexivity ].

Ltac frame_regs :=
  let r := fresh "r" in
  intros r; intros; destruct r; try congruence; reflexivity.

(** *** gpio_sifive_irq_handler, evaluated *)

Lemma gpio_fire_callbacks_eval {R} (cbs : list gpio_callback) (pins : Z)
    (w : world) :
  @gpio_fire_callbacks R cbs pins w = (inl tt, after_callbacks cbs pins w).
Proof.
  revert w. induction cbs as [ | c cbs IH ]; intros w.
  - unfold after_callbacks. cbn. rewrite app_nil_r.
    destruct w; reflexivity.
  - cbn [gpio_fire_callbacks]. unfold bind at 1, when.
    unfold after_callbacks, matching. cbn [filter].
    destruct (nz (Z.land (pin_mask c) pins)).
    + unfold bind at 1, log. cbv beta iota. rewrite IH.
      unfold after_callbacks, matching. cbn [gpio plic_irq trace fold_left map].
      rewrite <- app_assoc. reflexivity.
    + unfold ret at 1. cbv beta iota. rewrite IH. reflexivity.
Qed.

(** The mask the handler builds for the pin behind the active PLIC line. *)
Lemma pin_mask_of_irq (irq base pin : Z) :
  0 <= pin < 32 ->
  irq - (base - RISCV_MAX_GENERIC_IRQ) = pin ->
  u32 (Z.shiftl 1 (u32 (irq - u32 (base - RISCV_MAX_GENERIC_IRQ)))) = BIT pin.
Proof.
  intros Hpin Hirq.
  assert (Hsh : u32 (irq - u32 (base - RISCV_MAX_GENERIC_IRQ)) = pin).
  { unfold u32. rewrite Zminus_mod_idemp_r, Hirq. apply Z.mod_small. lia. }
  rewrite Hsh. apply u32_small. apply BIT_range. exact Hpin.
Qed.

Lemma gpio_sifive_irq_handler_eval (dev : device) (w : world) (pin : Z) :
  0 <= pin < 32 ->
  plic_irq w - (gpio_irq_base (config_info dev) - RISCV_MAX_GENERIC_IRQ) = pin ->
  let w1 := after_callbacks (cb (driver_data dev)) (BIT pin) w in
  snd (call (gpio_sifive_irq_handler dev) w)
  = match first_pending (gpio w1) pin with
    | Some r => acknowledge r pin w1
    | None => w1
    end.
Proof.
  intros Hpin Hirq w1. subst w1. unfold gpio_sifive_irq_handler.
  unfold call, riscv_plic_get_irq. unfold bind at 1. cbv beta iota zeta.
  rewrite (pin_mask_of_irq _ _ pin Hpin Hirq).
  unfold bind at 1. rewrite gpio_fire_callbacks_eval.
  generalize (after_callbacks (cb (driver_data dev)) (BIT pin) w).
  intros [g1 irq1 t1]. unfold first_pending, acknowledge. run. cbn [load].
  rewrite (u32_small (BIT pin)) by (apply BIT_range; exact Hpin).
  rewrite nz_land_BIT by lia.
  destruct (pin_bit (rise_ip g1) pin); [ reflexivity | ].
  run. cbn [load]. rewrite nz_land_BIT by lia.
  destruct (pin_bit (fall_ip g1) pin); [ reflexivity | ].
  run. cbn [load]. rewrite nz_land_BIT by lia.
  destruct (pin_bit (high_ip g1) pin); [ reflexivity | ].
  run. cbn [load]. rewrite nz_land_BIT by lia.
  destruct (pin_bit (low_ip g1) pin); reflexivity.
Qed.

Lemma first_pending_is_pending (g : gpio_sifive_t) (pin : Z) (r : reg) :
  first_pending g pin = Some r -> is_pending r = true.
Proof.
  unfold first_pending. intros E.
  repeat match type of E with
         | (if ?c then _ else _) = _ => destruct c
         end;
    inversion E; reflexivity.
Qed.

(** What a write-1-to-clear store of BIT(pin) leaves in the register. *)
Lemma pin_bit_w1c (x pin i : Z) :
  0 <= pin ->
  pin_bit (Z.land x (Z.lnot (BIT pin))) i = (pin_bit x i && negb (i =? pin)).
Proof.
  intros Hpin. unfold pin_bit. rewrite Z.land_spec.
  destruct (Z.neg_nonneg_cases i) as [Hneg | Hi].
  - rewrite (Z.testbit_neg_r x i Hneg). reflexivity.
  - rewrite Z.lnot_spec, testbit_BIT by assumption. reflexivity.
Qed.

(** *** Store by store *)

Lemma single_bit_stores_app (pin : Z) (l1 l2 : list (reg * Z))
    (g : gpio_sifive_t) :
  single_bit_stores pin g l1 ->
  single_bit_stores pin (run_stores l1 g) l2 ->
  single_bit_stores pin g (l1 ++ l2).
Proof.
  revert g. induction l1 as [ | s l1 IH ]; intros g H1 H2.
  - exact H2.
  - cbn [app single_bit_stores] in *. destruct H1 as [Hs H1].
    split; [ exact Hs | ]. apply IH; assumption.
Qed.

Lemma rmw_ret {R A} (pin : Z) (a : A) : rmw_on_pin pin (@ret R A a).
Proof.
  intros w. exists []. cbn. rewrite app_nil_r. repeat split.
Qed.

Lemma rmw_Return {R A} (pin : Z) (x : R) : rmw_on_pin pin (@Return R A x).
Proof.
  intros w. exists []. cbn. rewrite app_nil_r. repeat split.
Qed.

Lemma rmw_bind {R A B} (pin : Z) (m : stmt R A) (k : A -> stmt R B) :
  rmw_on_pin pin m -> (forall a, rmw_on_pin pin (k a)) ->
  rmw_on_pin pin (bind m k).
Proof.
  intros Hm Hk w. unfold bind. destruct (Hm w) as (l1 & Ht1 & Hs1 & Hg1).
  destruct (m w) as [[a | x] w1]; cbn [snd] in *.
  - destruct (Hk a w1) as (l2 & Ht2 & Hs2 & Hg2).
    exists (l1 ++ l2). split; [ | split ].
    + rewrite Ht2, Ht1, map_app, app_assoc. reflexivity.
    + apply single_bit_stores_app; [ exact Hs1 | ].
      rewrite <- Hg1. exact Hs2.
    + rewrite Hg2, Hg1. unfold run_stores. rewrite fold_left_app.
      reflexivity.
  - exists l1. split; [ exact Ht1 | split; [ exact Hs1 | exact Hg1 ] ].
Qed.

Lemma rmw_when {R} (pin : Z) (c : bool) (s : stmt R unit) :
  rmw_on_pin pin s -> rmw_on_pin pin (when c s).
Proof. intros Hs. destruct c; [ exact Hs | apply rmw_ret ]. Qed.

Lemma rmw_or_assign {R} (pin : Z) (r : reg) :
  0 <= pin -> rmw_on_pin pin (@or_assign R r (BIT pin)).
Proof.
  intros Hpin w.
  exists [(r, u32 (Z.lor (load r (gpio w)) (BIT pin)))].
  unfold or_assign, bind, rd, wr. cbn [snd gpio trace map fst].
  split; [ reflexivity | split; [ | reflexivity ] ].
  cbn [single_bit_stores fst snd]. split; [ | exact I ].
  intros i Hi Hne. rewrite testbit_set by assumption.
  destruct (Z.eqb_spec i pin); [ contradiction | apply orb_false_r ].
Qed.

Lemma rmw_and_assign {R} (pin : Z) (r : reg) :
  0 <= pin -> rmw_on_pin pin (@and_assign R r (Z.lnot (BIT pin))).
Proof.
  intros Hpin w.
  exists [(r, u32 (Z.land (load r (gpio w)) (Z.lnot (BIT pin))))].
  unfold and_assign, bind, rd, wr. cbn [snd gpio trace map fst].
  split; [ reflexivity | split; [ | reflexivity ] ].
  cbn [single_bit_stores fst snd]. split; [ | exact I ].
  intros i Hi Hne. rewrite testbit_clear by assumption.
  destruct (Z.eqb_spec i pin); [ contradiction | apply andb_true_r ].
Qed.

Ltac rmw_step :=
  lazymatch goal with
  | |- rmw_on_pin _ (or_assign _ _) => apply rmw_or_assign; assumption
  | |- rmw_on_pin _ (and_assign _ _) => apply rmw_and_assign; assumption
  | |- rmw_on_pin _ (when _ _) => apply rmw_when
  | |- rmw_on_pin _ (Return _) => apply rmw_Return
  | |- rmw_on_pin _ (ret _) => apply rmw_ret
  | |- rmw_on_pin _ (bind _ _) => apply rmw_bind; [ | intros ? ]
  | |- rmw_on_pin _ (if ?c then _ else _) => destruct c
  end.

Lemma gpio_sifive_config_rmw (access_op pin flags : Z) :
  0 <= pin -> rmw_on_pin pin (gpio_sifive_config access_op pin flags).
Proof.
  intros Hpin. unfold gpio_sifive_config. repeat rmw_step.
Qed.

Ltac finish_errors :=
  repeat match goal with
         | |- _ /\ _ => split
         | |- forall _ : reg, _ => frame_regs
         | |- pin_bit _ _ = _ => bits; reflexivity
         | |- written_regs _ _ _ => show_written
         | |- _ ++ _ = _ => regs; repeat rewrite <- app_assoc; reflexivity
         | |- _ = _ => regs; reflexivity
         end.

(** ** Properties of the driver

    The registers are 32 bits wide, so the statements about bits of a valid
    pin assume SIFIVE_PINMUX_PINS <= 32; where success and failure have to
    be told apart they assume EINVAL <> 0.  A pin is a [u32_t], hence
    non-negative. *)

(** C5.  [gpio_sifive_write] in per-pin mode: a pin at or beyond
    SIFIVE_PINMUX_PINS is refused with -EINVAL; a pin whose input-enable bit
    is set is refused with -EINVAL and nothing is stored (so out_val is
    unchanged); otherwise the call returns 0, bit [pin] of out_val becomes
    the truth value of [value], and no other bit of out_val and no other
    register changes. *)
Theorem gpio_sifive_write_contract (w : world) (pin value : Z) :
  SIFIVE_PINMUX_PINS <= 32 -> 0 <= pin ->
  let res := call (gpio_sifive_write GPIO_ACCESS_BY_PIN pin value) w in
  (SIFIVE_PINMUX_PINS <= pin -> res = (- EINVAL, w)) /\
  (pin < SIFIVE_PINMUX_PINS -> pin_bit (in_en (gpio w)) pin = true ->
     res = (- EINVAL, w)) /\
  (pin < SIFIVE_PINMUX_PINS -> pin_bit (in_en (gpio w)) pin = false ->
     fst res = 0 /\
     pin_bit (out_val (gpio (snd res))) pin = nz value /\
     (forall i, 0 <= i < 32 -> i <> pin ->
        pin_bit (out_val (gpio (snd res))) i = pin_bit (out_val (gpio w)) i) /\
     (forall r, r <> OUT_VAL -> load r (gpio (snd res)) = load r (gpio w))).
Proof.
  intros Hfit Hpin res. subst res. split; [ | split ].
  - apply gpio_sifive_write_range.
  - intros Hin Hen. rewrite gpio_sifive_write_eval, Hen by lia. reflexivity.
  - intros Hin Hen. rewrite gpio_sifive_write_eval, Hen by lia.
    cbn [fst snd gpio]. split; [ reflexivity | split; [ | split ] ].
    + change (out_val (put OUT_VAL ?v ?g)) with v.
      rewrite written_out_val_bit, Z.eqb_refl by lia. reflexivity.
    + intros i Hi Hne. change (out_val (put OUT_VAL ?v ?g)) with v.
      rewrite written_out_val_bit by lia.
      destruct (Z.eqb_spec i pin); [ contradiction | reflexivity ].
    + intros r Hr. rewrite load_put.
      destruct (reg_eqb_spec OUT_VAL r); congruence.
Qed.


(** C6.  [gpio_sifive_read] in per-pin mode: a pin at or beyond
    SIFIVE_PINMUX_PINS is refused with -EINVAL; otherwise the call returns 0
    and hands back the pin's out_val bit when its out_en bit is set and its
    in_val bit when it is not, whatever the two value bits are.  In both
    cases the world after the call is the world before it: no register is
    modified and no store is issued. *)
Theorem gpio_sifive_read_contract (w : world) (pin value : Z) :
  0 <= pin ->
  let res := call (gpio_sifive_read GPIO_ACCESS_BY_PIN pin value) w in
  (SIFIVE_PINMUX_PINS <= pin -> res = ((- EINVAL, value), w)) /\
  (pin < SIFIVE_PINMUX_PINS ->
     snd res = w /\ fst (fst res) = 0 /\
     (pin_bit (out_en (gpio w)) pin = true ->
        snd (fst res) = Z.b2z (pin_bit (out_val (gpio w)) pin)) /\
     (pin_bit (out_en (gpio w)) pin = false ->
        snd (fst res) = Z.b2z (pin_bit (in_val (gpio w)) pin))).
Proof.
  intros Hpin res. subst res. split.
  - intros Hout. unfold gpio_sifive_read. run.
    rewrite Z.eqb_refl, geb_true by lia. reflexivity.
  - intros Hin. rewrite gpio_sifive_read_eval by lia.
    cbn [fst snd]. unfold read_bit.
    repeat split; intros Hen; rewrite Hen; reflexivity.
Qed.

(** C8.  [gpio_sifive_init] returns 0 and stores zero into exactly the eight
    configuration registers in_en, out_en, pue, rise_ie, fall_ie, high_ie,
    low_ie and invert, in that order, so that afterwards each of them is zero
    and, for every pin, its bit in each of them is clear; the nine other
    registers keep their content. *)
Theorem gpio_sifive_init_zeroes (d0 : gpio_sifive_data) (w : world) :
  let res := call (gpio_sifive_init (gpio_sifive_0 d0)) w in
  fst res = 0 /\
  stores (trace (snd res))
  = stores (trace w) ++ map (fun r => (r, 0)) config_regs /\
  (forall r, In r config_regs -> load r (gpio (snd res)) = 0) /\
  (forall r pin, In r config_regs ->
     pin_bit (load r (gpio (snd res))) pin = false) /\
  (forall r, ~ In r config_regs ->
     load r (gpio (snd res)) = load r (gpio w)).
Proof.
  intros res. subst res.
  destruct (gpio_sifive_init_eval d0 w) as (t & Ht & E). rewrite E.
  cbn [fst snd gpio trace].
  assert (Hz : forall r, In r config_regs -> load r (init_gpio (gpio w)) = 0).
  { intros r Hr. cbn in Hr.
    repeat (destruct Hr as [ <- | Hr ]; [ reflexivity | ]). contradiction. }
  split; [ reflexivity | split; [ | split; [ exact Hz | split ] ] ].
  - rewrite !stores_app, Ht, app_nil_r. reflexivity.
  - intros r pin Hr. rewrite (Hz r Hr). apply Z.bits_0.
  - intros r Hr. destruct r; try reflexivity; exfalso; apply Hr; cbn; tauto.
Qed.

(** C9.  In per-pin mode and for a valid pin, [gpio_sifive_write] fails
    exactly when the pin's in_en bit is set.  In particular a pin whose
    in_en and out_en bits are both clear, such as any pin right after
    [gpio_sifive_init], is written successfully: the call returns 0 and the
    pin's out_val bit becomes the truth value of [value]. *)
Theorem gpio_sifive_write_fails_iff_input_enabled (w : world) (pin value : Z) :
  SIFIVE_PINMUX_PINS <= 32 -> EINVAL <> 0 ->
  0 <= pin < SIFIVE_PINMUX_PINS ->
  let write w := call (gpio_sifive_write GPIO_ACCESS_BY_PIN pin value) w in
  (fst (write w) <> 0 <-> pin_bit (in_en (gpio w)) pin = true) /\
  (pin_bit (in_en (gpio w)) pin = false ->
   pin_bit (out_en (gpio w)) pin = false ->
     fst (write w) = 0 /\
     pin_bit (out_val (gpio (snd (write w)))) pin = nz value) /\
  (forall d0,
     let w1 := snd (call (gpio_sifive_init (gpio_sifive_0 d0)) w) in
     pin_bit (in_en (gpio w1)) pin = false /\
     pin_bit (out_en (gpio w1)) pin = false /\
     fst (write w1) = 0 /\
     pin_bit (out_val (gpio (snd (write w1)))) pin = nz value).
Proof.
  intros Hfit Herr Hpin write.
  assert (Hok : forall w0, pin_bit (in_en (gpio w0)) pin = false ->
            fst (write w0) = 0 /\
            pin_bit (out_val (gpio (snd (write w0)))) pin = nz value).
  { intros w0 Hen. subst write. cbv beta.
    rewrite gpio_sifive_write_eval, Hen by lia. cbn [fst snd gpio].
    change (out_val (put OUT_VAL ?v ?g)) with v.
    rewrite written_out_val_bit, Z.eqb_refl by lia. split; reflexivity. }
  split; [ | split ].
  - subst write. cbv beta. rewrite gpio_sifive_write_eval by lia.
    destruct (pin_bit (in_en (gpio w)) pin); cbn [fst]; split; intros E.
    + reflexivity.
    + lia.
    + congruence.
    + discriminate.
  - intros Hen _. apply Hok. exact Hen.
  - intros d0 w1.
    destruct (gpio_sifive_init_eval d0 w) as (t & _ & E).
    assert (Hen : pin_bit (in_en (gpio w1)) pin = false).
    { subst w1. rewrite E. cbn [snd gpio init_gpio in_en]. apply Z.bits_0. }
    assert (Hoe : pin_bit (out_en (gpio w1)) pin = false).
    { subst w1. rewrite E. cbn [snd gpio init_gpio out_en]. apply Z.bits_0. }
    split; [ exact Hen | split; [ exact Hoe | apply Hok; exact Hen ] ].
Qed.


(** C7.  For a valid pin and any flags (and any addressing mode), every
    register write [gpio_sifive_config] performs changes at most bit [pin]
    of the register it writes: the call's effects are a list of stores, each
    of which, at the moment it is issued, writes a word equal to the
    register's content in every bit but bit [pin], and the block after the
    call is the block before it with exactly these stores applied.  Hence,
    for every other pin index, every bit of every register is the same
    after the call as before it. *)
Theorem gpio_sifive_config_frame (w : world) (access_op pin flags : Z) :
  0 <= pin < SIFIVE_PINMUX_PINS ->
  let res := call (gpio_sifive_config access_op pin flags) w in
  (forall r i, 0 <= i < 32 -> i <> pin ->
     pin_bit (load r (gpio (snd res))) i = pin_bit (load r (gpio w)) i) /\
  (exists l,
     trace (snd res) = trace w ++ map (fun s => EvStore (fst s) (snd s)) l /\
     single_bit_stores pin (gpio w) l /\
     gpio (snd res) = run_stores l (gpio w)).
Proof.
  intros Hpin res. subst res. rewrite snd_call. split.
  - apply gpio_sifive_config_keeps. lia.
  - apply gpio_sifive_config_rmw. lia.
Qed.


(** C3.  For a valid pin, a successful [gpio_sifive_config] with output
    direction leaves the pin's in_en bit clear and its out_en bit set, and a
    successful one with input direction leaves its out_en bit clear and its
    in_en bit set; so the two bits are never both set for the pin, and a
    block in which no pin had both set stays so. *)
Theorem gpio_sifive_config_direction (w : world) (pin flags : Z) :
  SIFIVE_PINMUX_PINS <= 32 -> 0 <= pin < SIFIVE_PINMUX_PINS ->
  let res := call (gpio_sifive_config GPIO_ACCESS_BY_PIN pin flags) w in
  let g' := gpio (snd res) in
  fst res = 0 ->
  (dir_out flags = true ->
     pin_bit (in_en g') pin = false /\ pin_bit (out_en g') pin = true) /\
  (dir_out flags = false ->
     pin_bit (out_en g') pin = false /\ pin_bit (in_en g') pin = true) /\
  pin_bit (in_en g') pin && pin_bit (out_en g') pin = false /\
  ((forall i, 0 <= i < 32 ->
      pin_bit (in_en (gpio w)) i && pin_bit (out_en (gpio w)) i = false) ->
   forall i, 0 <= i < 32 ->
      pin_bit (in_en g') i && pin_bit (out_en g') i = false).
Proof.
  intros Hfit Hpin res g' _.
  destruct (gpio_sifive_config_direction_bits w pin flags Hfit Hpin)
    as [Hin Hout].
  fold res in Hin, Hout. fold g' in Hin, Hout.
  assert (Hex : pin_bit (in_en g') pin && pin_bit (out_en g') pin = false).
  { rewrite Hin, Hout. destruct (dir_out flags); reflexivity. }
  split; [ | split; [ | split ] ].
  - intros Hd. rewrite Hin, Hout, Hd. split; reflexivity.
  - intros Hd. rewrite Hin, Hout, Hd. split; reflexivity.
  - exact Hex.
  - intros Hinv i Hi. destruct (Z.eq_dec i pin) as [-> | Hne].
    + exact Hex.
    + pose proof (gpio_sifive_config_keeps GPIO_ACCESS_BY_PIN pin flags
                    (proj1 Hpin) w) as Hk.
      rewrite <- snd_call in Hk. fold res in Hk. fold g' in Hk.
      pose proof (Hk IN_EN i Hi Hne) as K1.
      pose proof (Hk OUT_EN i Hi Hne) as K2.
      cbn [load] in K1, K2. rewrite K1, K2.
      apply Hinv. exact Hi.
Qed.

(** C4.  For a valid pin, a successful [gpio_sifive_config] with GPIO_INT:
    with GPIO_INT_EDGE it stores to high_ie and low_ie (clearing the pin's
    bit) and then to rise_ie and fall_ie, leaving both set for
    GPIO_INT_DOUBLE_EDGE, rise set and fall clear for GPIO_INT_ACTIVE_HIGH,
    rise clear and fall set otherwise; without GPIO_INT_EDGE it stores to
    rise_ie and fall_ie (clearing the pin's bit) and then to high_ie and
    low_ie, leaving high set and low clear for GPIO_INT_ACTIVE_HIGH, high
    clear and low set otherwise.  Hence the pin never has an edge class and
    a level class armed together afterwards. *)
Theorem gpio_sifive_config_interrupt (w : world) (pin flags : Z) :
  SIFIVE_PINMUX_PINS <= 32 -> EINVAL <> 0 ->
  0 <= pin < SIFIVE_PINMUX_PINS ->
  let res := call (gpio_sifive_config GPIO_ACCESS_BY_PIN pin flags) w in
  let g' := gpio (snd res) in
  fst res = 0 -> nz (Z.land flags GPIO_INT) = true ->
  (nz (Z.land flags GPIO_INT_EDGE) = true ->
     written_regs w (snd res)
       [OUT_EN; IN_EN; PUE; HIGH_IE; LOW_IE; RISE_IE; FALL_IE] /\
     pin_bit (high_ie g') pin = false /\ pin_bit (low_ie g') pin = false /\
     (nz (Z.land flags GPIO_INT_DOUBLE_EDGE) = true ->
        pin_bit (rise_ie g') pin = true /\ pin_bit (fall_ie g') pin = true) /\
     (nz (Z.land flags GPIO_INT_DOUBLE_EDGE) = false ->
      nz (Z.land flags GPIO_INT_ACTIVE_HIGH) = true ->
        pin_bit (rise_ie g') pin = true /\ pin_bit (fall_ie g') pin = false) /\
     (nz (Z.land flags GPIO_INT_DOUBLE_EDGE) = false ->
      nz (Z.land flags GPIO_INT_ACTIVE_HIGH) = false ->
        pin_bit (rise_ie g') pin = false /\ pin_bit (fall_ie g') pin = true)) /\
  (nz (Z.land flags GPIO_INT_EDGE) = false ->
     written_regs w (snd res)
       [OUT_EN; IN_EN; PUE; RISE_IE; FALL_IE; HIGH_IE; LOW_IE] /\
     pin_bit (rise_ie g') pin = false /\ pin_bit (fall_ie g') pin = false /\
     (nz (Z.land flags GPIO_INT_ACTIVE_HIGH) = true ->
        pin_bit (high_ie g') pin = true /\ pin_bit (low_ie g') pin = false) /\
     (nz (Z.land flags GPIO_INT_ACTIVE_HIGH) = false ->
        pin_bit (high_ie g') pin = false /\ pin_bit (low_ie g') pin = true)) /\
  edge_armed g' pin && level_armed g' pin = false.
Proof.
  intros Hfit Herr Hpin res g'. subst g' res. destruct w as [g irq t].
  unfold edge_armed, level_armed.
  config_paths.
  all: intros Hrc Hint; try discriminate; try (exfalso; lia).
  all: split; [ intros Hedge | split; [ intros Hedge | ] ]; try discriminate.
  all: try (split; [ show_written | ]).
  all: repeat split; intros; try discriminate; bits; reflexivity.
Qed.


(** C1, as the driver has it.  The two guards come before any store: with
    another addressing mode, or a pin at or beyond SIFIVE_PINMUX_PINS, the
    call returns its error and the world is unchanged.  The flag
    combinations are refused after the direction has been written.  On an
    input-direction request, GPIO_POL_INV or a pull-down request returns
    -EINVAL after exactly two stores: out_en with the pin's bit cleared and
    in_en with the pin's bit set, every other bit of the two words as it
    was.  GPIO_INT on an output-direction request returns -EINVAL after
    exactly three stores: in_en with the pin's bit cleared, out_en with the
    pin's bit set and invert with the pin's bit as GPIO_POL_INV asks, every
    other bit of the three words as it was.  In both cases every other
    register is unchanged.  An output-direction request without GPIO_INT is
    accepted whatever its pull field, pull-down included, and leaves pue
    alone.  Any failing call leaves every register other than in_en, out_en
    and invert as it was, and no call changes a bit of another pin. *)
Theorem gpio_sifive_config_errors (w : world) (access_op pin flags : Z) :
  SIFIVE_PINMUX_PINS <= 32 -> 0 <= pin ->
  let res := call (gpio_sifive_config access_op pin flags) w in
  let g := gpio w in
  let g' := gpio (snd res) in
  (access_op <> GPIO_ACCESS_BY_PIN -> res = (- ENOTSUP, w)) /\
  (access_op = GPIO_ACCESS_BY_PIN -> SIFIVE_PINMUX_PINS <= pin ->
     res = (- EINVAL, w)) /\
  (access_op = GPIO_ACCESS_BY_PIN -> pin < SIFIVE_PINMUX_PINS ->
     other_pins_kept pin g g' /\
     (dir_out flags = false ->
      nz (Z.land flags GPIO_POL_INV) = true \/
      (Z.land flags GPIO_PUD_MASK =? GPIO_PUD_PULL_DOWN) = true ->
        fst res = - EINVAL /\
        trace (snd res)
        = trace w ++ [EvStore OUT_EN (out_en g'); EvStore IN_EN (in_en g')] /\
        out_en g' = u32 (Z.land (out_en g) (Z.lnot (BIT pin))) /\
        in_en g' = u32 (Z.lor (in_en g) (BIT pin)) /\
        written_regs w (snd res) [OUT_EN; IN_EN] /\
        pin_bit (out_en g') pin = false /\ pin_bit (in_en g') pin = true /\
        (forall r, r <> OUT_EN -> r <> IN_EN -> load r g' = load r g)) /\
     (dir_out flags = true -> nz (Z.land flags GPIO_INT) = true ->
        fst res = - EINVAL /\
        trace (snd res)
        = trace w ++ [EvStore IN_EN (in_en g'); EvStore OUT_EN (out_en g');
                      EvStore INVERT (invert g')] /\
        in_en g' = u32 (Z.land (in_en g) (Z.lnot (BIT pin))) /\
        out_en g' = u32 (Z.lor (out_en g) (BIT pin)) /\
        invert g' = u32 (if nz (Z.land flags GPIO_POL_INV)
                         then Z.lor (invert g) (BIT pin)
                         else Z.land (invert g) (Z.lnot (BIT pin))) /\
        written_regs w (snd res) [IN_EN; OUT_EN; INVERT] /\
        pin_bit (in_en g') pin = false /\ pin_bit (out_en g') pin = true /\
        pin_bit (invert g') pin = nz (Z.land flags GPIO_POL_INV) /\
        (forall r, r <> IN_EN -> r <> OUT_EN -> r <> INVERT ->
           load r g' = load r g)) /\
     (dir_out flags = true -> nz (Z.land flags GPIO_INT) = false ->
        fst res = 0 /\ pue g' = pue g) /\
     (fst res <> 0 ->
        forall r, r <> IN_EN -> r <> OUT_EN -> r <> INVERT ->
          load r g' = load r g)).
Proof.
  intros Hfit Hpin res g g'. subst g' g res. split; [ | split ].
  - intros Hop. unfold gpio_sifive_config. run.
    destruct (Z.eqb_spec access_op GPIO_ACCESS_BY_PIN); [ contradiction | ].
    reflexivity.
  - intros -> Hout. unfold gpio_sifive_config. run.
    rewrite Z.eqb_refl, geb_true by lia. reflexivity.
  - intros -> Hin. split.
    { rewrite snd_call. apply gpio_sifive_config_keeps. exact Hpin. }
    destruct w as [g irq t]. unfold dir_out.
    config_paths.
    all: split; [ intros Hd Hbad
                | split; [ intros Hd Hint
                         | split; [ intros Hd Hint | intros Hrc ] ] ].
    all: try discriminate.
    all: try (destruct Hbad; discriminate).
    all: try (exfalso; apply Hrc; reflexivity).
    all: finish_errors.
Qed.


(** C2.  For a valid pin, one run of [gpio_sifive_irq_handler] looks at
    rise_ip, fall_ip, high_ip and low_ip in that order and issues exactly
    one store, of the pin's single-bit mask, to the first of them whose bit
    for the pin is set at acknowledge time; under write-1-to-clear this
    clears that bit and nothing else.  In particular, when the pin's
    rise-pending bit is set, that bit is cleared, every other bit of rise_ip
    is kept, and fall_ip, high_ip and low_ip are left as they were. *)
Theorem gpio_sifive_irq_handler_acknowledges (dev : device) (w : world)
    (pin : Z) :
  SIFIVE_PINMUX_PINS <= 32 -> 0 <= pin < SIFIVE_PINMUX_PINS ->
  plic_irq w - (gpio_irq_base (config_info dev) - RISCV_MAX_GENERIC_IRQ) = pin ->
  let w1 := snd (@gpio_fire_callbacks unit (cb (driver_data dev)) (BIT pin) w) in
  let w' := snd (call (gpio_sifive_irq_handler dev) w) in
  (forall r, first_pending (gpio w1) pin = Some r ->
     trace w' = trace w1 ++ [EvStore r (BIT pin)] /\
     pin_bit (load r (gpio w')) pin = false /\
     (forall i, i <> pin ->
        pin_bit (load r (gpio w')) i = pin_bit (load r (gpio w1)) i) /\
     (forall r', r' <> r -> load r' (gpio w') = load r' (gpio w1))) /\
  (pin_bit (rise_ip (gpio w1)) pin = true ->
     stores (trace w') = stores (trace w1) ++ [(RISE_IP, BIT pin)] /\
     pin_bit (rise_ip (gpio w')) pin = false /\
     (forall i, i <> pin ->
        pin_bit (rise_ip (gpio w')) i = pin_bit (rise_ip (gpio w1)) i) /\
     fall_ip (gpio w') = fall_ip (gpio w1) /\
     high_ip (gpio w') = high_ip (gpio w1) /\
     low_ip (gpio w') = low_ip (gpio w1)).
Proof.
  intros Hfit Hpin Hirq w1 w'.
  assert (Hpin32 : 0 <= pin < 32) by lia.
  pose proof (gpio_sifive_irq_handler_eval dev w pin Hpin32 Hirq) as E.
  cbv zeta in E. fold w' in E.
  assert (Ew1 : after_callbacks (cb (driver_data dev)) (BIT pin) w = w1).
  { subst w1. rewrite gpio_fire_callbacks_eval. reflexivity. }
  rewrite Ew1 in E. clearbody w' w1.
  assert (Hgen : forall r, first_pending (gpio w1) pin = Some r ->
     trace w' = trace w1 ++ [EvStore r (BIT pin)] /\
     pin_bit (load r (gpio w')) pin = false /\
     (forall i, i <> pin ->
        pin_bit (load r (gpio w')) i = pin_bit (load r (gpio w1)) i) /\
     (forall r', r' <> r -> load r' (gpio w') = load r' (gpio w1))).
  { intros r Hr. rewrite Hr in E. subst w'. unfold acknowledge.
    cbn [gpio trace].
    rewrite load_hw_store_same, (first_pending_is_pending _ _ _ Hr).
    split; [ reflexivity | split; [ | split ] ].
    - rewrite pin_bit_w1c, Z.eqb_refl by lia. apply andb_false_r.
    - intros i Hne. rewrite pin_bit_w1c by lia.
      destruct (Z.eqb_spec i pin); [ contradiction | apply andb_true_r ].
    - intros r' Hne. apply load_hw_store_other. congruence. }
  split; [ exact Hgen | ].
  intros Hrise.
  assert (Hr : first_pending (gpio w1) pin = Some RISE_IP).
  { unfold first_pending. rewrite Hrise. reflexivity. }
  destruct (Hgen RISE_IP Hr) as (Ht & Hclr & Hoth & Hregs).
  split; [ | split; [ exact Hclr | split; [ exact Hoth | ] ] ].
  - rewrite Ht, stores_app. reflexivity.
  - split; [ | split ].
    + apply (Hregs FALL_IP). discriminate.
    + apply (Hregs HIGH_IP). discriminate.
    + apply (Hregs LOW_IP). discriminate.
Qed.

(** C10.  If, at acknowledge time, none of rise_ip, fall_ip, high_ip and
    low_ip has the pin's bit set, the handler ends where the callbacks left
    the world: the matching callbacks have been invoked, in list order, with
    the pin's mask; no store has been issued; and the four pending registers
    are unchanged. *)
Theorem gpio_sifive_irq_handler_nothing_pending (dev : device) (w : world)
    (pin : Z) :
  SIFIVE_PINMUX_PINS <= 32 -> 0 <= pin < SIFIVE_PINMUX_PINS ->
  plic_irq w - (gpio_irq_base (config_info dev) - RISCV_MAX_GENERIC_IRQ) = pin ->
  let cbs := cb (driver_data dev) in
  let w1 := snd (@gpio_fire_callbacks unit cbs (BIT pin) w) in
  let w' := snd (call (gpio_sifive_irq_handler dev) w) in
  pin_bit (rise_ip (gpio w1)) pin = false ->
  pin_bit (fall_ip (gpio w1)) pin = false ->
  pin_bit (high_ip (gpio w1)) pin = false ->
  pin_bit (low_ip (gpio w1)) pin = false ->
  w' = w1 /\
  trace w'
  = trace w ++ map (fun c => EvCallback (handler_id c) (BIT pin))
                 (matching (BIT pin) cbs) /\
  stores (trace w') = stores (trace w) /\
  (forall r, is_pending r = true -> load r (gpio w') = load r (gpio w1)).
Proof.
  intros Hfit Hpin Hirq cbs w1 w' Hrise Hfall Hhigh Hlow.
  assert (Hpin32 : 0 <= pin < 32) by lia.
  pose proof (gpio_sifive_irq_handler_eval dev w pin Hpin32 Hirq) as E.
  cbv zeta in E. fold w' in E. fold cbs in E.
  assert (Ew1 : after_callbacks cbs (BIT pin) w = w1).
  { subst w1. rewrite gpio_fire_callbacks_eval. reflexivity. }
  rewrite Ew1 in E. unfold first_pending in E.
  rewrite Hrise, Hfall, Hhigh, Hlow in E.
  rewrite E, <- Ew1. unfold after_callbacks. cbn [trace].
  split; [ reflexivity | split; [ reflexivity | split ] ].
  - rewrite stores_app.
    assert (Hnone : forall l : list gpio_callback,
              stores (map (fun c => EvCallback (handler_id c) (BIT pin)) l) = []).
    { intros l. induction l as [ | c l IH ]; [ reflexivity | exact IH ]. }
    rewrite Hnone. apply app_nil_r.
  - intros r _. reflexivity.
Qed.


(** ** Further properties *)

(** *** Registers a statement does not store to *)

Lemma keeps_reg_ret {R A} (r : reg) (a : A) : keeps_reg r (@ret R A a).
Proof. intros w. reflexivity. Qed.

Lemma keeps_reg_Return {R A} (r : reg) (x : R) : keeps_reg r (@Return R A x).
Proof. intros w. reflexivity. Qed.

Lemma keeps_reg_bind {R A B} (r : reg) (m : stmt R A) (k : A -> stmt R B) :
  keeps_reg r m -> (forall a, keeps_reg r (k a)) -> keeps_reg r (bind m k).
Proof.
  intros Hm Hk w. unfold bind. specialize (Hm w).
  destruct (m w) as [[a | x] w1]; cbn [snd] in *.
  - rewrite Hk. exact Hm.
  - exact Hm.
Qed.

Lemma keeps_reg_when {R} (r : reg) (c : bool) (s : stmt R unit) :
  keeps_reg r s -> keeps_reg r (when c s).
Proof. intros Hs. destruct c; [ exact Hs | apply keeps_reg_ret ]. Qed.

Lemma keeps_reg_or_assign {R} (r r' : reg) (v : Z) :
  r' <> r -> keeps_reg r (@or_assign R r' v).
Proof.
  intros Hne w. unfold or_assign, bind, rd, wr. cbn [snd gpio].
  apply load_hw_store_other. exact Hne.
Qed.

Lemma keeps_reg_and_assign {R} (r r' : reg) (v : Z) :
  r' <> r -> keeps_reg r (@and_assign R r' v).
Proof.
  intros Hne w. unfold and_assign, bind, rd, wr. cbn [snd gpio].
  apply load_hw_store_other. exact Hne.
Qed.

Ltac keeps_reg_step :=
  lazymatch goal with
  | |- keeps_reg _ (or_assign _ _) => apply keeps_reg_or_assign; discriminate
  | |- keeps_reg _ (and_assign _ _) => apply keeps_reg_and_assign; discriminate
  | |- keeps_reg _ (when _ _) => apply keeps_reg_when
  | |- keeps_reg _ (Return _) => apply keeps_reg_Return
  | |- keeps_reg _ (ret _) => apply keeps_reg_ret
  | |- keeps_reg _ (bind _ _) => apply keeps_reg_bind; [ | intros ? ]
  | |- keeps_reg _ (if ?c then _ else _) => destruct c
  end.

(** X1.  [gpio_sifive_enable_callback] never touches the register block.
    With another addressing mode it returns -ENOTSUP, with a pin at or
    beyond SIFIVE_PINMUX_PINS it returns -EINVAL, both without any effect;
    otherwise it returns 0 after exactly one irq_enable, of the line
    gpio_irq_base + pin. *)
Theorem gpio_sifive_enable_callback_contract (dev : device) (w : world)
    (access_op pin : Z) :
  let res := call (gpio_sifive_enable_callback dev access_op pin) w in
  gpio (snd res) = gpio w /\
  (access_op <> GPIO_ACCESS_BY_PIN -> res = (- ENOTSUP, w)) /\
  (access_op = GPIO_ACCESS_BY_PIN -> SIFIVE_PINMUX_PINS <= pin ->
     res = (- EINVAL, w)) /\
  (access_op = GPIO_ACCESS_BY_PIN -> pin < SIFIVE_PINMUX_PINS ->
     fst res = 0 /\
     trace (snd res)
     = trace w ++ [EvIrqEnable (u32 (gpio_irq_base (config_info dev) + pin))]).
Proof.
  intros res. subst res. destruct w as [g irq t].
  unfold gpio_sifive_enable_callback, irq_enable. run.
  destruct (Z.eqb_spec access_op GPIO_ACCESS_BY_PIN) as [-> | Hop]; run.
  - destruct (Z_lt_le_dec pin SIFIVE_PINMUX_PINS) as [Hin | Hout].
    + rewrite geb_false by assumption. run.
      repeat split; solve [ reflexivity | congruence | intros; lia ].
    + rewrite geb_true by assumption. run.
      repeat split; solve [ reflexivity | congruence | intros; lia ].
  - repeat split; solve [ reflexivity | congruence ].
Qed.

(** X2.  [gpio_sifive_disable_callback] mirrors it: the same two refusals
    without effect, otherwise 0 after exactly one irq_disable of the line
    gpio_irq_base + pin; the register block is never touched. *)
Theorem gpio_sifive_disable_callback_contract (dev : device) (w : world)
    (access_op pin : Z) :
  let res := call (gpio_sifive_disable_callback dev access_op pin) w in
  gpio (snd res) = gpio w /\
  (access_op <> GPIO_ACCESS_BY_PIN -> res = (- ENOTSUP, w)) /\
  (access_op = GPIO_ACCESS_BY_PIN -> SIFIVE_PINMUX_PINS <= pin ->
     res = (- EINVAL, w)) /\
  (access_op = GPIO_ACCESS_BY_PIN -> pin < SIFIVE_PINMUX_PINS ->
     fst res = 0 /\
     trace (snd res)
     = trace w ++ [EvIrqDisable (u32 (gpio_irq_base (config_info dev) + pin))]).
Proof.
  intros res. subst res. destruct w as [g irq t].
  unfold gpio_sifive_disable_callback, irq_disable. run.
  destruct (Z.eqb_spec access_op GPIO_ACCESS_BY_PIN) as [-> | Hop]; run.
  - destruct (Z_lt_le_dec pin SIFIVE_PINMUX_PINS) as [Hin | Hout].
    + rewrite geb_false by assumption. run.
      repeat split; solve [ reflexivity | congruence | intros; lia ].
    + rewrite geb_true by assumption. run.
      repeat split; solve [ reflexivity | congruence | intros; lia ].
  - repeat split; solve [ reflexivity | congruence ].
Qed.

(** X3.  With an addressing mode other than GPIO_ACCESS_BY_PIN,
    [gpio_sifive_write] and [gpio_sifive_read] return -ENOTSUP whatever the
    pin, change nothing, and read leaves the caller's value as it was. *)
Theorem gpio_sifive_io_unsupported_mode (w : world) (access_op pin value : Z) :
  access_op <> GPIO_ACCESS_BY_PIN ->
  call (gpio_sifive_write access_op pin value) w = (- ENOTSUP, w) /\
  call (gpio_sifive_read access_op pin value) w = ((- ENOTSUP, value), w).
Proof.
  intros Hop. unfold gpio_sifive_write, gpio_sifive_read. run.
  destruct (Z.eqb_spec access_op GPIO_ACCESS_BY_PIN); [ contradiction | ].
  split; reflexivity.
Qed.

Lemma gpio_sifive_config_status_eval (w : world) (pin flags : Z) :
  pin < SIFIVE_PINMUX_PINS ->
  fst (call (gpio_sifive_config GPIO_ACCESS_BY_PIN pin flags) w)
  = if invalid_combination flags then - EINVAL else 0.
Proof.
  intros Hpin. destruct w as [g irq t].
  set (status := if invalid_combination flags then - EINVAL else 0).
  config_paths.
  all: subst status; unfold invalid_combination, dir_out.
  all: repeat match goal with
              | E : ?c = _ |- context [?c] => rewrite E
              end.
  all: cbn [orb]; reflexivity.
Qed.

(** X4.  In per-pin mode and for a valid pin the status of
    [gpio_sifive_config] is decided by the flags alone, never by the state
    of the registers: -EINVAL for GPIO_INT on an output, and for polarity
    inversion or pull-down on an input; 0 for every other flag word. *)
Theorem gpio_sifive_config_status (w w' : world) (pin flags : Z) :
  pin < SIFIVE_PINMUX_PINS ->
  let status x := fst (call (gpio_sifive_config GPIO_ACCESS_BY_PIN pin flags) x) in
  status w = status w' /\
  (invalid_combination flags = true -> status w = - EINVAL) /\
  (invalid_combination flags = false -> status w = 0).
Proof.
  intros Hpin status. subst status. cbv beta.
  rewrite !gpio_sifive_config_status_eval by assumption.
  split; [ reflexivity | ].
  split; intros Hc; rewrite Hc; reflexivity.
Qed.


Lemma gpio_sifive_config_keeps_reg (r : reg) (access_op pin flags : Z) :
  In r other_regs -> keeps_reg r (gpio_sifive_config access_op pin flags).
Proof.
  intros Hr. unfold gpio_sifive_config. cbn in Hr.
  repeat (destruct Hr as [ <- | Hr ]; [ repeat keeps_reg_step | ]).
  contradiction.
Qed.

(** X5.  [gpio_sifive_config] never stores to in_val, out_val, ds, the four
    pending registers, iof_en or iof_sel, whatever its arguments and whether
    it succeeds or not: these nine registers hold after the call what they
    held before. *)
Theorem gpio_sifive_config_other_regs (w : world) (access_op pin flags : Z) :
  let res := call (gpio_sifive_config access_op pin flags) w in
  forall r, In r other_regs -> load r (gpio (snd res)) = load r (gpio w).
Proof.
  intros res r Hr. subst res. rewrite snd_call.
  apply gpio_sifive_config_keeps_reg. exact Hr.
Qed.

(** X6.  What a configuration leaves alone by branch: an input-direction
    request never stores to invert, an output-direction request never
    stores to pue, and a request without GPIO_INT never stores to rise_ie,
    fall_ie, high_ie or low_ie; so a trigger class armed earlier stays armed
    when the pin is reconfigured without GPIO_INT. *)
Theorem gpio_sifive_config_branch_frame (w : world) (access_op pin flags : Z) :
  let g := gpio w in
  let g' := gpio (snd (call (gpio_sifive_config access_op pin flags) w)) in
  (dir_out flags = false -> invert g' = invert g) /\
  (dir_out flags = true -> pue g' = pue g) /\
  (nz (Z.land flags GPIO_INT) = false ->
     rise_ie g' = rise_ie g /\ fall_ie g' = fall_ie g /\
     high_ie g' = high_ie g /\ low_ie g' = low_ie g).
Proof.
  intros g g'. subst g' g. destruct w as [g irq t]. unfold dir_out.
  destruct (Z.eqb_spec access_op GPIO_ACCESS_BY_PIN) as [-> | Hop].
  - destruct (Z_lt_le_dec pin SIFIVE_PINMUX_PINS) as [Hin | Hout].
    + config_paths.
      all: repeat split; intros; try discriminate; reflexivity.
    + unfold gpio_sifive_config. run.
      rewrite Z.eqb_refl, geb_true by assumption. run.
      repeat split; reflexivity.
  - unfold gpio_sifive_config. run.
    destruct (Z.eqb_spec access_op GPIO_ACCESS_BY_PIN); [ contradiction | ].
    run. repeat split; reflexivity.
Qed.

(** X7.  What a successful configuration writes besides the direction: an
    output request leaves the pin's invert bit equal to the GPIO_POL_INV
    flag, and an input request leaves its pue bit set exactly when the pull
    field of the flags is GPIO_PUD_PULL_UP. *)
Theorem gpio_sifive_config_polarity_and_pull (w : world) (pin flags : Z) :
  SIFIVE_PINMUX_PINS <= 32 -> EINVAL <> 0 ->
  0 <= pin < SIFIVE_PINMUX_PINS ->
  let res := call (gpio_sifive_config GPIO_ACCESS_BY_PIN pin flags) w in
  let g' := gpio (snd res) in
  fst res = 0 ->
  (dir_out flags = true ->
     pin_bit (invert g') pin = nz (Z.land flags GPIO_POL_INV)) /\
  (dir_out flags = false ->
     pin_bit (pue g') pin
     = (Z.land flags GPIO_PUD_MASK =? GPIO_PUD_PULL_UP)).
Proof.
  intros Hfit Herr Hpin res g'. subst g' res. destruct w as [g irq t].
  unfold dir_out.
  config_paths.
  all: intros Hrc; try (exfalso; lia).
  all: split; intros Hd; try discriminate; bits; reflexivity.
Qed.


(** *** Words stored twice *)

Lemma u32_bits_ext (a b : Z) :
  (forall i, 0 <= i < 32 -> pin_bit a i = pin_bit b i) -> u32 a = u32 b.
Proof.
  intros Hbits. apply Z.bits_inj'. intros i Hi. unfold u32.
  destruct (Z_lt_le_dec i 32) as [Hlo | Hhi].
  - rewrite !Z.mod_pow2_bits_low by lia. apply Hbits. lia.
  - rewrite !Z.mod_pow2_bits_high by lia. reflexivity.
Qed.

Lemma pin_bit_u32 (x i : Z) : 0 <= i < 32 -> pin_bit (u32 x) i = pin_bit x i.
Proof. apply testbit_u32. Qed.

Lemma pin_bit_set (x p i : Z) :
  0 <= p -> pin_bit (Z.lor x (BIT p)) i = (pin_bit x i || (i =? p)).
Proof.
  intros Hp. unfold pin_bit. rewrite Z.lor_spec, testbit_BIT by assumption.
  reflexivity.
Qed.

Ltac word_bits :=
  apply u32_bits_ext; intros ? ?;
  repeat first [ rewrite pin_bit_set by assumption
               | rewrite pin_bit_w1c by assumption
               | rewrite pin_bit_u32 by assumption ];
  repeat match goal with
         | |- context [pin_bit ?x ?i] => destruct (pin_bit x i)
         | |- context [?i =? ?p] => destruct (i =? p)
         end;
  reflexivity.

Lemma u32_set_set (x p : Z) :
  0 <= p -> u32 (Z.lor (u32 (Z.lor x (BIT p))) (BIT p)) = u32 (Z.lor x (BIT p)).
Proof. intros Hp. word_bits. Qed.

Lemma u32_clear_clear (x p : Z) :
  0 <= p ->
  u32 (Z.land (u32 (Z.land x (Z.lnot (BIT p)))) (Z.lnot (BIT p)))
  = u32 (Z.land x (Z.lnot (BIT p))).
Proof. intros Hp. word_bits. Qed.

Lemma u32_set_clear (x p : Z) :
  0 <= p ->
  u32 (Z.lor (u32 (Z.land x (Z.lnot (BIT p)))) (BIT p)) = u32 (Z.lor x (BIT p)).
Proof. intros Hp. word_bits. Qed.

Lemma u32_clear_set (x p : Z) :
  0 <= p ->
  u32 (Z.land (u32 (Z.lor x (BIT p))) (Z.lnot (BIT p)))
  = u32 (Z.land x (Z.lnot (BIT p))).
Proof. intros Hp. word_bits. Qed.

Lemma gpio_ext (g1 g2 : gpio_sifive_t) :
  (forall r, load r g1 = load r g2) -> g1 = g2.
Proof.
  intros Hall. destruct g1, g2.
  pose proof (Hall IN_VAL); pose proof (Hall IN_EN); pose proof (Hall OUT_EN);
    pose proof (Hall OUT_VAL); pose proof (Hall PUE); pose proof (Hall DS);
    pose proof (Hall RISE_IE); pose proof (Hall RISE_IP);
    pose proof (Hall FALL_IE); pose proof (Hall FALL_IP);
    pose proof (Hall HIGH_IE); pose proof (Hall HIGH_IP);
    pose proof (Hall LOW_IE); pose proof (Hall LOW_IP);
    pose proof (Hall IOF_EN); pose proof (Hall IOF_SEL);
    pose proof (Hall INVERT).
  cbn [load in_val in_en out_en out_val pue ds rise_ie rise_ip fall_ie
       fall_ip high_ie high_ip low_ie low_ip iof_en iof_sel invert] in *.
  subst. reflexivity.
Qed.

(** X8.  [gpio_sifive_config] is idempotent: repeating a call with the same
    arguments returns the same status and leaves the register block exactly
    as the first call left it. *)
Theorem gpio_sifive_config_idempotent (w : world) (access_op pin flags : Z) :
  0 <= pin ->
  let once := call (gpio_sifive_config access_op pin flags) w in
  let twice := call (gpio_sifive_config access_op pin flags) (snd once) in
  fst twice = fst once /\ gpio (snd twice) = gpio (snd once).
Proof.
  intros Hp once twice. subst twice once. destruct w as [g irq t].
  destruct (Z.eqb_spec access_op GPIO_ACCESS_BY_PIN) as [-> | Hop].
  - destruct (Z_lt_le_dec pin SIFIVE_PINMUX_PINS) as [Hin | Hout].
    + set (again := call (gpio_sifive_config GPIO_ACCESS_BY_PIN pin flags)).
      unfold again at 2 3 5 6.
      config_paths.
      all: regs; subst again; unfold gpio_sifive_config; run.
      all: rewrite Z.eqb_refl, geb_false by lia; run.
      all: repeat (match goal with
                   | E : ?c = _ |- context [if ?c then _ else _] => rewrite E
                   | E : ?c = _ |- context [if negb ?c then _ else _] =>
                       rewrite E
                   end; run).
      all: split; [ reflexivity | ].
      all: regs; apply gpio_ext; intros r; destruct r; regs.
      all: rewrite ?u32_set_set, ?u32_clear_clear by assumption; reflexivity.
    + unfold gpio_sifive_config. run.
      rewrite Z.eqb_refl, geb_true by assumption. run.
      rewrite ?Z.eqb_refl, ?geb_true by assumption. run.
      split; reflexivity.
  - unfold gpio_sifive_config. run.
    destruct (Z.eqb_spec access_op GPIO_ACCESS_BY_PIN); [ contradiction | ].
    run.
    destruct (Z.eqb_spec access_op GPIO_ACCESS_BY_PIN); [ contradiction | ].
    split; reflexivity.
Qed.


(** *** Configuration, write and read together *)

(** X9.  Round trip on an output: once [gpio_sifive_config] has been called
    for a valid pin with output direction, a write of any value to that pin
    succeeds and a following read succeeds and hands back 1 if the value
    written was non-zero and 0 if it was zero. *)
Theorem gpio_sifive_output_round_trip (w : world) (pin flags value old : Z) :
  SIFIVE_PINMUX_PINS <= 32 -> 0 <= pin < SIFIVE_PINMUX_PINS ->
  dir_out flags = true ->
  let w1 := snd (call (gpio_sifive_config GPIO_ACCESS_BY_PIN pin flags) w) in
  let written := call (gpio_sifive_write GPIO_ACCESS_BY_PIN pin value) w1 in
  let got := call (gpio_sifive_read GPIO_ACCESS_BY_PIN pin old) (snd written) in
  fst written = 0 /\ fst got = (0, Z.b2z (nz value)).
Proof.
  intros Hfit Hpin Hd w1 written got.
  destruct (gpio_sifive_config_direction_bits w pin flags Hfit Hpin)
    as [Hin Hout].
  fold w1 in Hin, Hout. rewrite Hd in Hin, Hout. cbn [negb] in Hin.
  subst got written. clearbody w1.
  rewrite gpio_sifive_write_eval, Hin by assumption. cbn [fst snd].
  split; [ reflexivity | ].
  rewrite gpio_sifive_read_eval by assumption. cbn [fst gpio].
  unfold read_bit.
  change (out_en (put OUT_VAL ?v ?g)) with (out_en g).
  change (out_val (put OUT_VAL ?v ?g)) with v.
  rewrite Hout, written_out_val_bit, Z.eqb_refl by lia. reflexivity.
Qed.

(** X10.  On an input: once [gpio_sifive_config] has been called for a valid
    pin with input direction, every write to that pin is refused with
    -EINVAL and changes nothing, and a read succeeds and hands back the
    pin's in_val bit, which the configuration did not touch. *)
Theorem gpio_sifive_input_refuses_write (w : world) (pin flags value old : Z) :
  SIFIVE_PINMUX_PINS <= 32 -> 0 <= pin < SIFIVE_PINMUX_PINS ->
  dir_out flags = false ->
  let w1 := snd (call (gpio_sifive_config GPIO_ACCESS_BY_PIN pin flags) w) in
  call (gpio_sifive_write GPIO_ACCESS_BY_PIN pin value) w1 = (- EINVAL, w1) /\
  fst (call (gpio_sifive_read GPIO_ACCESS_BY_PIN pin old) w1)
  = (0, Z.b2z (pin_bit (in_val (gpio w)) pin)).
Proof.
  intros Hfit Hpin Hd w1.
  destruct (gpio_sifive_config_direction_bits w pin flags Hfit Hpin)
    as [Hin Hout].
  fold w1 in Hin, Hout. rewrite Hd in Hin, Hout. cbn [negb] in Hin.
  assert (Hval : in_val (gpio w1) = in_val (gpio w)).
  { subst w1. rewrite snd_call.
    apply (gpio_sifive_config_keeps_reg IN_VAL). cbn. tauto. }
  clearbody w1. split.
  - rewrite gpio_sifive_write_eval, Hin by assumption. reflexivity.
  - rewrite gpio_sifive_read_eval by assumption. cbn [fst].
    unfold read_bit. rewrite Hout, Hval. reflexivity.
Qed.

Lemma written_out_val_again (g : gpio_sifive_t) (pin v1 v2 : Z) :
  0 <= pin ->
  written_out_val (put OUT_VAL (written_out_val g pin v1) g) pin v2
  = written_out_val g pin v2.
Proof.
  intros Hp. unfold written_out_val.
  change (out_val (put OUT_VAL ?v ?g0)) with v.
  destruct (nz v1), (nz v2).
  - apply u32_set_set. exact Hp.
  - apply u32_clear_set. exact Hp.
  - apply u32_set_clear. exact Hp.
  - apply u32_clear_clear. exact Hp.
Qed.

(** X11.  The last write wins: two successive writes to a valid pin that is
    not input-enabled both succeed and leave the register block exactly as
    the second write alone would have; in particular writing the same value
    twice is the same as writing it once. *)
Theorem gpio_sifive_write_last_wins (w : world) (pin v1 v2 : Z) :
  0 <= pin < SIFIVE_PINMUX_PINS ->
  pin_bit (in_en (gpio w)) pin = false ->
  let first := call (gpio_sifive_write GPIO_ACCESS_BY_PIN pin v1) w in
  let second := call (gpio_sifive_write GPIO_ACCESS_BY_PIN pin v2) (snd first) in
  fst first = 0 /\ fst second = 0 /\
  gpio (snd second)
  = gpio (snd (call (gpio_sifive_write GPIO_ACCESS_BY_PIN pin v2) w)).
Proof.
  intros Hpin Hen first second. subst second first.
  rewrite (gpio_sifive_write_eval w pin v1), (gpio_sifive_write_eval w pin v2),
    Hen by assumption.
  cbn [fst snd].
  rewrite gpio_sifive_write_eval by assumption. cbn [gpio].
  change (in_en (put OUT_VAL ?v ?g)) with (in_en g). rewrite Hen.
  cbn [fst snd gpio]. split; [ reflexivity | split; [ reflexivity | ] ].
  rewrite written_out_val_again by lia.
  destruct (gpio w). reflexivity.
Qed.

(** X12.  A write to one pin does not change what a read of any other
    valid pin hands back. *)
Theorem gpio_sifive_write_keeps_other_reads (w : world) (p q value old : Z) :
  SIFIVE_PINMUX_PINS <= 32 ->
  0 <= p < SIFIVE_PINMUX_PINS -> 0 <= q < SIFIVE_PINMUX_PINS -> p <> q ->
  fst (call (gpio_sifive_read GPIO_ACCESS_BY_PIN q old)
         (snd (call (gpio_sifive_write GPIO_ACCESS_BY_PIN p value) w)))
  = fst (call (gpio_sifive_read GPIO_ACCESS_BY_PIN q old) w).
Proof.
  intros Hfit Hp Hq Hne.
  rewrite gpio_sifive_write_eval by assumption.
  destruct (pin_bit (in_en (gpio w)) p); [ reflexivity | ].
  cbn [snd]. rewrite !gpio_sifive_read_eval by assumption.
  cbn [fst gpio]. unfold read_bit.
  change (out_en (put OUT_VAL ?v ?g)) with (out_en g).
  change (in_val (put OUT_VAL ?v ?g)) with (in_val g).
  change (out_val (put OUT_VAL ?v ?g)) with v.
  rewrite written_out_val_bit by lia.
  destruct (Z.eqb_spec q p); [ congruence | reflexivity ].
Qed.

(** X13.  After [gpio_sifive_init] and the configuration of one valid pin,
    every other pin is still unconfigured: its bit is clear in each of the
    eight configuration registers, so a write to any other valid pin is
    accepted. *)
Theorem gpio_sifive_init_config_others (d0 : gpio_sifive_data) (w : world)
    (pin flags : Z) :
  SIFIVE_PINMUX_PINS <= 32 -> 0 <= pin < SIFIVE_PINMUX_PINS ->
  let w1 := snd (call (gpio_sifive_init (gpio_sifive_0 d0)) w) in
  let w2 := snd (call (gpio_sifive_config GPIO_ACCESS_BY_PIN pin flags) w1) in
  (forall r i, In r config_regs -> 0 <= i < 32 -> i <> pin ->
     pin_bit (load r (gpio w2)) i = false) /\
  (forall q value, 0 <= q < SIFIVE_PINMUX_PINS -> q <> pin ->
     fst (call (gpio_sifive_write GPIO_ACCESS_BY_PIN q value) w2) = 0).
Proof.
  intros Hfit Hpin w1 w2.
  assert (Hclear : forall r i, In r config_regs -> 0 <= i < 32 -> i <> pin ->
            pin_bit (load r (gpio w2)) i = false).
  { intros r i Hr Hi Hne. subst w2. rewrite snd_call.
    rewrite (gpio_sifive_config_keeps GPIO_ACCESS_BY_PIN pin flags
               (proj1 Hpin) w1 r i Hi Hne).
    subst w1. destruct (gpio_sifive_init_eval d0 w) as (t & _ & E).
    rewrite E. cbn [snd gpio]. cbn in Hr.
    repeat (destruct Hr as [ <- | Hr ]; [ apply Z.bits_0 | ]).
    contradiction. }
  split; [ exact Hclear | ].
  intros q value Hq Hne.
  rewrite gpio_sifive_write_eval by assumption.
  change (in_en (gpio w2)) with (load IN_EN (gpio w2)).
  rewrite Hclear by (cbn; auto || lia). reflexivity.
Qed.


(** *** The handler as a whole *)

Lemma after_callbacks_quiet (cbs : list gpio_callback) (pins : Z) (w : world) :
  quiet_callbacks cbs -> gpio (after_callbacks cbs pins w) = gpio w.
Proof.
  intros Hq. unfold after_callbacks. cbn [gpio].
  assert (Hsub : forall c, In c (matching pins cbs) -> In c cbs).
  { intros c Hc. apply filter_In in Hc. tauto. }
  revert Hsub. generalize (matching pins cbs). generalize (gpio w).
  intros g l. revert g.
  induction l as [ | c l IH ]; intros g Hsub; [ reflexivity | ].
  cbn [fold_left]. rewrite (Hq c) by (apply Hsub; left; reflexivity).
  apply IH. intros c' Hc'. apply Hsub. right. exact Hc'.
Qed.

Lemma stores_callbacks (pins : Z) (l : list gpio_callback) :
  stores (map (fun c => EvCallback (handler_id c) pins) l) = [].
Proof. induction l as [ | c l IH ]; [ reflexivity | exact IH ]. Qed.

(** The handler under callbacks that leave the block alone. *)
Lemma gpio_sifive_irq_handler_quiet (dev : device) (w : world) (pin : Z) :
  0 <= pin < 32 ->
  plic_irq w - (gpio_irq_base (config_info dev) - RISCV_MAX_GENERIC_IRQ) = pin ->
  quiet_callbacks (cb (driver_data dev)) ->
  let w' := snd (call (gpio_sifive_irq_handler dev) w) in
  plic_irq w' = plic_irq w /\
  gpio w' = match first_pending (gpio w) pin with
            | Some r => hw_store r (BIT pin) (gpio w)
            | None => gpio w
            end /\
  stores (trace w')
  = stores (trace w) ++ match first_pending (gpio w) pin with
                        | Some r => [(r, BIT pin)]
                        | None => []
                        end.
Proof.
  intros Hpin Hirq Hq w'. subst w'.
  rewrite (gpio_sifive_irq_handler_eval dev w pin Hpin Hirq). cbv zeta.
  rewrite (after_callbacks_quiet _ _ _ Hq).
  destruct (first_pending (gpio w) pin) as [ r | ].
  - unfold acknowledge. cbn [gpio plic_irq trace].
    rewrite (after_callbacks_quiet _ _ _ Hq).
    split; [ reflexivity | split; [ reflexivity | ] ].
    unfold after_callbacks. cbn [trace].
    rewrite !stores_app, stores_callbacks, app_nil_r. reflexivity.
  - rewrite (after_callbacks_quiet _ _ _ Hq).
    split; [ reflexivity | split; [ reflexivity | ] ].
    unfold after_callbacks. cbn [trace].
    rewrite !stores_app, stores_callbacks, !app_nil_r. reflexivity.
Qed.

(** X14.  When the callbacks leave the register block alone, one run of
    [gpio_sifive_irq_handler] for a valid pin changes at most one bit: the
    pin's bit in one pending register.  Every non-pending register, and
    every other pin's bit in the pending registers, is as before, and the
    run issues at most one store. *)
Theorem gpio_sifive_irq_handler_frame (dev : device) (w : world) (pin : Z) :
  SIFIVE_PINMUX_PINS <= 32 -> 0 <= pin < SIFIVE_PINMUX_PINS ->
  plic_irq w - (gpio_irq_base (config_info dev) - RISCV_MAX_GENERIC_IRQ) = pin ->
  quiet_callbacks (cb (driver_data dev)) ->
  let w' := snd (call (gpio_sifive_irq_handler dev) w) in
  (forall r, is_pending r = false -> load r (gpio w') = load r (gpio w)) /\
  (forall r i, i <> pin ->
     pin_bit (load r (gpio w')) i = pin_bit (load r (gpio w)) i) /\
  (exists l, stores (trace w') = stores (trace w) ++ l /\ (length l <= 1)%nat).
Proof.
  intros Hfit Hpin Hirq Hq w'.
  destruct (gpio_sifive_irq_handler_quiet dev w pin ltac:(lia) Hirq Hq)
    as (_ & Hg & Ht).
  fold w' in Hg, Ht. clearbody w'.
  destruct (first_pending (gpio w) pin) as [ r0 | ] eqn:Hfp.
  - pose proof (first_pending_is_pending _ _ _ Hfp) as Hp0.
    split; [ | split ].
    + intros r Hr. rewrite Hg. apply load_hw_store_other. congruence.
    + intros r i Hne. rewrite Hg.
      destruct (reg_eqb_spec r0 r) as [ <- | Hr ].
      * rewrite load_hw_store_same, Hp0, pin_bit_w1c by lia.
        destruct (Z.eqb_spec i pin); [ contradiction | apply andb_true_r ].
      * rewrite load_hw_store_other by assumption. reflexivity.
    + exists [(r0, BIT pin)]. split; [ exact Ht | apply le_n ].
  - rewrite Hg. split; [ | split ].
    + reflexivity.
    + reflexivity.
    + exists []. split; [ exact Ht | apply Nat.le_0_l ].
Qed.

(** X15.  Pending classes are drained one per run, in priority order: if
    both the rise- and the fall-pending bit of a valid pin are set and the
    callbacks leave the block alone, the first run of the handler clears
    only the rise bit and leaves the fall bit pending; a second run for the
    same line then clears the fall bit.  The two runs store the pin's mask
    to rise_ip and then to fall_ip, and nothing else. *)
Theorem gpio_sifive_irq_handler_drains (dev : device) (w : world) (pin : Z) :
  SIFIVE_PINMUX_PINS <= 32 -> 0 <= pin < SIFIVE_PINMUX_PINS ->
  plic_irq w - (gpio_irq_base (config_info dev) - RISCV_MAX_GENERIC_IRQ) = pin ->
  quiet_callbacks (cb (driver_data dev)) ->
  pin_bit (rise_ip (gpio w)) pin = true ->
  pin_bit (fall_ip (gpio w)) pin = true ->
  let w1 := snd (call (gpio_sifive_irq_handler dev) w) in
  let w2 := snd (call (gpio_sifive_irq_handler dev) w1) in
  pin_bit (rise_ip (gpio w1)) pin = false /\
  pin_bit (fall_ip (gpio w1)) pin = true /\
  pin_bit (rise_ip (gpio w2)) pin = false /\
  pin_bit (fall_ip (gpio w2)) pin = false /\
  stores (trace w2)
  = stores (trace w) ++ [(RISE_IP, BIT pin); (FALL_IP, BIT pin)].
Proof.
  intros Hfit Hpin Hirq Hq Hrise Hfall w1 w2.
  assert (Hpin32 : 0 <= pin < 32) by lia.
  destruct (gpio_sifive_irq_handler_quiet dev w pin Hpin32 Hirq Hq)
    as (Hi1 & Hg1 & Ht1).
  fold w1 in Hi1, Hg1, Ht1.
  assert (Hfp : first_pending (gpio w) pin = Some RISE_IP).
  { unfold first_pending. rewrite Hrise. reflexivity. }
  rewrite Hfp in Hg1, Ht1.
  assert (Hr1 : pin_bit (rise_ip (gpio w1)) pin = false).
  { rewrite Hg1. regs. rewrite pin_bit_w1c, Z.eqb_refl by lia.
    apply andb_false_r. }
  assert (Hf1 : pin_bit (fall_ip (gpio w1)) pin = true).
  { rewrite Hg1. regs. exact Hfall. }
  rewrite <- Hi1 in Hirq.
  destruct (gpio_sifive_irq_handler_quiet dev w1 pin Hpin32 Hirq Hq)
    as (_ & Hg2 & Ht2).
  fold w2 in Hg2, Ht2.
  assert (Hfp1 : first_pending (gpio w1) pin = Some FALL_IP).
  { unfold first_pending. rewrite Hr1, Hf1. reflexivity. }
  rewrite Hfp1 in Hg2, Ht2. clearbody w2 w1.
  split; [ exact Hr1 | split; [ exact Hf1 | split; [ | split ] ] ].
  - rewrite Hg2. regs. exact Hr1.
  - rewrite Hg2. regs. rewrite pin_bit_w1c, Z.eqb_refl by lia.
    apply andb_false_r.
  - rewrite Ht2, Ht1, <- app_assoc. reflexivity.
Qed.


(** *** Configurations of different pins *)

Lemma gpio_sifive_config_ops (w : world) (pin flags : Z) :
  pin < SIFIVE_PINMUX_PINS ->
  gpio (snd (call (gpio_sifive_config GPIO_ACCESS_BY_PIN pin flags) w))
  = apply_ops pin (config_ops flags) (gpio w).
Proof.
  intros Hpin. destruct w as [g irq t]. cbn [gpio].
  set (ops := config_ops flags).
  config_paths.
  all: subst ops; unfold config_ops, invalid_combination, dir_out.
  all: repeat match goal with
              | E : ?c = _ |- context [?c] => rewrite E
              end.
  all: cbn [orb negb app]; unfold apply_ops, apply_op;
    cbn [fold_left fst snd]; regs; reflexivity.
Qed.


Lemma apply_op_comm (p q : Z) (g : gpio_sifive_t) (o1 o2 : reg * bool) :
  0 <= p -> 0 <= q -> p <> q ->
  apply_op p (apply_op q g o2) o1 = apply_op q (apply_op p g o1) o2.
Proof.
  intros Hp Hq Hne. destruct o1 as [r1 b1], o2 as [r2 b2].
  unfold apply_op. cbn [fst snd]. apply gpio_ext. intros r.
  rewrite !load_put.
  destruct (reg_eqb_spec r1 r2) as [-> | H12].
  - destruct (reg_eqb_spec r2 r2) as [_ | Habs]; [ | congruence ].
    destruct (reg_eqb_spec r2 r) as [_ | _]; [ | reflexivity ].
    destruct b1, b2; apply u32_bits_ext; intros i Hi;
      repeat first [ rewrite pin_bit_set by assumption
                   | rewrite pin_bit_w1c by assumption
                   | rewrite pin_bit_u32 by assumption ];
      destruct (Z.eqb_spec i p), (Z.eqb_spec i q); try lia;
      destruct (pin_bit (load r2 g) i); reflexivity.
  - destruct (reg_eqb_spec r2 r1) as [E | _]; [ congruence | ].
    destruct (reg_eqb_spec r1 r) as [E1 | _], (reg_eqb_spec r2 r) as [E2 | _];
      try congruence; reflexivity.
Qed.

Lemma apply_ops_op_comm (p q : Z) (ops : list (reg * bool)) (o : reg * bool)
    (g : gpio_sifive_t) :
  0 <= p -> 0 <= q -> p <> q ->
  apply_op p (apply_ops q ops g) o = apply_ops q ops (apply_op p g o).
Proof.
  intros Hp Hq Hne. revert g. unfold apply_ops.
  induction ops as [ | o2 ops IH ]; intros g; [ reflexivity | ].
  cbn [fold_left]. rewrite IH. f_equal.
  apply apply_op_comm; assumption.
Qed.

Lemma apply_ops_comm (p q : Z) (ops1 ops2 : list (reg * bool))
    (g : gpio_sifive_t) :
  0 <= p -> 0 <= q -> p <> q ->
  apply_ops p ops1 (apply_ops q ops2 g) = apply_ops q ops2 (apply_ops p ops1 g).
Proof.
  intros Hp Hq Hne. revert g.
  induction ops1 as [ | o ops1 IH ]; intros g; [ reflexivity | ].
  change (apply_ops p (o :: ops1) ?x) with (apply_ops p ops1 (apply_op p x o)).
  rewrite <- IH. f_equal.
  apply apply_ops_op_comm; assumption.
Qed.

(** X16.  Configurations of two different valid pins commute: whichever of
    the two calls is made first, each returns the same status as it would on
    its own and the register block ends up exactly the same. *)
Theorem gpio_sifive_config_commute (w : world) (p q fp fq : Z) :
  0 <= p < SIFIVE_PINMUX_PINS -> 0 <= q < SIFIVE_PINMUX_PINS -> p <> q ->
  let cfg pin flags := call (gpio_sifive_config GPIO_ACCESS_BY_PIN pin flags) in
  fst (cfg q fq (snd (cfg p fp w))) = fst (cfg q fq w) /\
  fst (cfg p fp (snd (cfg q fq w))) = fst (cfg p fp w) /\
  gpio (snd (cfg q fq (snd (cfg p fp w))))
  = gpio (snd (cfg p fp (snd (cfg q fq w)))).
Proof.
  intros Hp Hq Hne cfg. subst cfg. cbv beta.
  rewrite !gpio_sifive_config_status_eval by lia.
  rewrite !gpio_sifive_config_ops by lia.
  split; [ reflexivity | split; [ reflexivity | ] ].
  symmetry. apply apply_ops_comm; lia.
Qed.

End DriverProofs.

(** ** The statements on the FE310 constants *)

Lemma gpio_sifive_write_contract_witness :
  (@SIFIVE_PINMUX_PINS zephyr_fe310 <= 32 /\ 0 <= 3) /\
  fst (call (@gpio_sifive_write zephyr_fe310 0 3 1) (world_of gpio_zero 0)) = 0.
Proof.
  split; [ split; [ cbn; lia | lia ] | ].
  refine (proj1 (proj2 (proj2
    (@gpio_sifive_write_contract zephyr_fe310 (world_of gpio_zero 0) 3 1 _ _))
      _ _)).
  - cbn; lia.
  - lia.
  - cbn; lia.
  - reflexivity.
Defined.

(** C1 as stated fails: on the reset block, configuring pin 3 as input with
    GPIO_POL_INV (flags 0x80) is refused with -EINVAL, yet the pin's in_en
    bit has gone from clear to set; and a pull-down request on an
    output-direction configuration (flags 0x201) is not refused at all. *)
Lemma gpio_sifive_config_error_after_store :
  ~ (forall (w : world) (pin flags : Z),
       fst (call (@gpio_sifive_config zephyr_fe310 0 pin flags) w) <> 0 ->
       forall r,
         pin_bit (load r (gpio (snd (call (@gpio_sifive_config zephyr_fe310
                                             0 pin flags) w)))) pin
         = pin_bit (load r (gpio w)) pin)
  /\ fst (call (@gpio_sifive_config zephyr_fe310 0 3 513)
            (world_of gpio_zero 0)) = 0.
Proof.
  split; [ | reflexivity ].
  intros Hclaim.
  specialize (Hclaim (world_of gpio_zero 0) 3 128).
  assert (Hrc : fst (call (@gpio_sifive_config zephyr_fe310 0 3 128)
                       (world_of gpio_zero 0)) <> 0)
    by (vm_compute; discriminate).
  specialize (Hclaim Hrc IN_EN). vm_compute in Hclaim. discriminate.
Qed.

Lemma gpio_sifive_read_contract_witness :
  0 <= 3 /\
  snd (fst (call (@gpio_sifive_read zephyr_fe310 0 3 7) (world_of gpio_zero 0)))
  = 0.
Proof.
  split; [ lia | ].
  exact (proj2 (proj2 (proj2 (proj2
    (@gpio_sifive_read_contract zephyr_fe310 (world_of gpio_zero 0) 3 7
       ltac:(lia)) ltac:(cbn; lia)))) eq_refl).
Defined.

Lemma gpio_sifive_write_fails_iff_input_enabled_witness :
  (@SIFIVE_PINMUX_PINS zephyr_fe310 <= 32 /\ @EINVAL zephyr_fe310 <> 0 /\
   0 <= 3 < @SIFIVE_PINMUX_PINS zephyr_fe310) /\
  (fst (call (@gpio_sifive_write zephyr_fe310 0 3 1) (world_of gpio_zero 0)) = 0
   /\ pin_bit (out_val (gpio (snd (call (@gpio_sifive_write zephyr_fe310 0 3 1)
                                       (world_of gpio_zero 0))))) 3 = true).
Proof.
  assert (H1 : @SIFIVE_PINMUX_PINS zephyr_fe310 <= 32) by (cbn; lia).
  assert (H2 : @EINVAL zephyr_fe310 <> 0) by (cbn; lia).
  assert (H3 : 0 <= 3 < @SIFIVE_PINMUX_PINS zephyr_fe310) by (cbn; lia).
  split; [ auto | ].
  exact (proj1 (proj2
    (@gpio_sifive_write_fails_iff_input_enabled zephyr_fe310
       (world_of gpio_zero 0) 3 1 H1 H2 H3)) eq_refl eq_refl).
Defined.

Lemma gpio_sifive_config_frame_witness :
  0 <= 3 < @SIFIVE_PINMUX_PINS zephyr_fe310 /\
  pin_bit (load IN_EN (gpio (snd (call (@gpio_sifive_config zephyr_fe310 0 3 0)
                                    (world_of gpio_zero 0))))) 4
  = pin_bit (load IN_EN (gpio (world_of gpio_zero 0))) 4 /\
  (exists l,
     trace (snd (call (@gpio_sifive_config zephyr_fe310 0 3 0)
                   (world_of gpio_zero 0)))
     = trace (world_of gpio_zero 0)
       ++ map (fun s => EvStore (fst s) (snd s)) l /\
     single_bit_stores 3 (gpio (world_of gpio_zero 0)) l /\
     gpio (snd (call (@gpio_sifive_config zephyr_fe310 0 3 0)
                  (world_of gpio_zero 0)))
     = run_stores l (gpio (world_of gpio_zero 0))).
Proof.
  assert (H3 : 0 <= 3 < @SIFIVE_PINMUX_PINS zephyr_fe310) by (cbn; lia).
  split; [ exact H3 | ].
  destruct (@gpio_sifive_config_frame zephyr_fe310 (world_of gpio_zero 0)
              0 3 0 H3) as [Hbits Hstores].
  split; [ apply (Hbits IN_EN 4); lia | exact Hstores ].
Defined.

Lemma gpio_sifive_config_direction_witness :
  (@SIFIVE_PINMUX_PINS zephyr_fe310 <= 32 /\
   0 <= 3 < @SIFIVE_PINMUX_PINS zephyr_fe310 /\
   fst (call (@gpio_sifive_config zephyr_fe310 0 3 1) (world_of gpio_zero 0)) = 0) /\
  (pin_bit (in_en (gpio (snd (call (@gpio_sifive_config zephyr_fe310 0 3 1)
                                (world_of gpio_zero 0))))) 3 = false /\
   pin_bit (out_en (gpio (snd (call (@gpio_sifive_config zephyr_fe310 0 3 1)
                                 (world_of gpio_zero 0))))) 3 = true).
Proof.
  assert (H1 : @SIFIVE_PINMUX_PINS zephyr_fe310 <= 32) by (cbn; lia).
  assert (H3 : 0 <= 3 < @SIFIVE_PINMUX_PINS zephyr_fe310) by (cbn; lia).
  split; [ split; [ exact H1 | split; [ exact H3 | reflexivity ] ] | ].
  exact (proj1 (@gpio_sifive_config_direction zephyr_fe310
                  (world_of gpio_zero 0) 3 1 H1 H3 eq_refl) eq_refl).
Defined.

Lemma gpio_sifive_config_interrupt_witness :
  (@SIFIVE_PINMUX_PINS zephyr_fe310 <= 32 /\ @EINVAL zephyr_fe310 <> 0 /\
   0 <= 3 < @SIFIVE_PINMUX_PINS zephyr_fe310 /\
   fst (call (@gpio_sifive_config zephyr_fe310 0 3 98) (world_of gpio_zero 0)) = 0 /\
   nz (Z.land 98 (@GPIO_INT zephyr_fe310)) = true) /\
  (pin_bit (rise_ie (gpio (snd (call (@gpio_sifive_config zephyr_fe310 0 3 98)
                                  (world_of gpio_zero 0))))) 3 = true /\
   pin_bit (fall_ie (gpio (snd (call (@gpio_sifive_config zephyr_fe310 0 3 98)
                                  (world_of gpio_zero 0))))) 3 = true).
Proof.
  assert (H1 : @SIFIVE_PINMUX_PINS zephyr_fe310 <= 32) by (cbn; lia).
  assert (H2 : @EINVAL zephyr_fe310 <> 0) by (cbn; lia).
  assert (H3 : 0 <= 3 < @SIFIVE_PINMUX_PINS zephyr_fe310) by (cbn; lia).
  split; [ repeat split; solve [ assumption | cbn; lia ] | ].
  destruct (proj1 (@gpio_sifive_config_interrupt zephyr_fe310
                     (world_of gpio_zero 0) 3 98 H1 H2 H3 eq_refl eq_refl)
              eq_refl) as (_ & _ & _ & Hd & _).
  exact (Hd eq_refl).
Defined.

Lemma gpio_sifive_config_errors_witness :
  (@SIFIVE_PINMUX_PINS zephyr_fe310 <= 32 /\ 0 <= 3) /\
  fst (call (@gpio_sifive_config zephyr_fe310 0 3 128) (world_of gpio_zero 0))
  = - @EINVAL zephyr_fe310 /\
  written_regs (world_of gpio_zero 0)
    (snd (call (@gpio_sifive_config zephyr_fe310 0 3 128) (world_of gpio_zero 0)))
    [OUT_EN; IN_EN] /\
  fst (call (@gpio_sifive_config zephyr_fe310 0 3 513) (world_of gpio_zero 0))
  = 0.
Proof.
  assert (H1 : @SIFIVE_PINMUX_PINS zephyr_fe310 <= 32) by (cbn; lia).
  assert (H3 : 0 <= 3) by lia.
  split; [ split; assumption | ].
  destruct (proj2 (proj2
              (@gpio_sifive_config_errors zephyr_fe310 (world_of gpio_zero 0)
                 0 3 128 H1 H3)) eq_refl ltac:(cbn; lia))
    as (_ & Hin & _).
  destruct (Hin eq_refl (or_introl eq_refl))
    as (Hrc & _ & _ & _ & Hw & _).
  destruct (proj2 (proj2
              (@gpio_sifive_config_errors zephyr_fe310 (world_of gpio_zero 0)
                 0 3 513 H1 H3)) eq_refl ltac:(cbn; lia))
    as (_ & _ & _ & Hacc & _).
  split; [ exact Hrc | split; [ exact Hw | exact (proj1 (Hacc eq_refl eq_refl)) ] ].
Defined.

Lemma gpio_sifive_irq_handler_acknowledges_witness :
  let dev := @gpio_sifive_0 zephyr_fe310 {| cb := sample_callbacks |} in
  let w := world_of gpio_rise_pending_3 10 in
  (@SIFIVE_PINMUX_PINS zephyr_fe310 <= 32 /\
   0 <= 3 < @SIFIVE_PINMUX_PINS zephyr_fe310 /\
   plic_irq w - (gpio_irq_base (config_info dev)
                 - @RISCV_MAX_GENERIC_IRQ zephyr_fe310) = 3) /\
  pin_bit (rise_ip (gpio (snd (call (@gpio_sifive_irq_handler zephyr_fe310 dev)
                                 w)))) 3 = false.
Proof.
  intros dev w.
  assert (H1 : @SIFIVE_PINMUX_PINS zephyr_fe310 <= 32) by (cbn; lia).
  assert (H3 : 0 <= 3 < @SIFIVE_PINMUX_PINS zephyr_fe310) by (cbn; lia).
  assert (H4 : plic_irq w - (gpio_irq_base (config_info dev)
                 - @RISCV_MAX_GENERIC_IRQ zephyr_fe310) = 3) by reflexivity.
  split; [ auto | ].
  exact (proj1 (proj2 (proj2
    (@gpio_sifive_irq_handler_acknowledges zephyr_fe310 dev w 3 H1 H3 H4)
      eq_refl))).
Defined.

Lemma gpio_sifive_irq_handler_nothing_pending_witness :
  let dev := @gpio_sifive_0 zephyr_fe310 {| cb := sample_callbacks |} in
  let w := world_of gpio_zero 10 in
  (@SIFIVE_PINMUX_PINS zephyr_fe310 <= 32 /\
   0 <= 3 < @SIFIVE_PINMUX_PINS zephyr_fe310 /\
   plic_irq w - (gpio_irq_base (config_info dev)
                 - @RISCV_MAX_GENERIC_IRQ zephyr_fe310) = 3) /\
  stores (trace (snd (call (@gpio_sifive_irq_handler zephyr_fe310 dev) w)))
  = stores (trace w).
Proof.
  intros dev w.
  assert (H1 : @SIFIVE_PINMUX_PINS zephyr_fe310 <= 32) by (cbn; lia).
  assert (H3 : 0 <= 3 < @SIFIVE_PINMUX_PINS zephyr_fe310) by (cbn; lia).
  assert (H4 : plic_irq w - (gpio_irq_base (config_info dev)
                 - @RISCV_MAX_GENERIC_IRQ zephyr_fe310) = 3) by reflexivity.
  split; [ auto | ].
  refine (proj1 (proj2 (proj2
    (@gpio_sifive_irq_handler_nothing_pending zephyr_fe310 dev w 3 H1 H3 H4
       _ _ _ _)))).
  all: vm_compute; reflexivity.
Defined.

(** ** Instances of the further properties *)

Lemma sample_callbacks_quiet : quiet_callbacks sample_callbacks.
Proof.
  intros c [ <- | [ <- | [] ] ] pins g; reflexivity.
Qed.

Lemma gpio_sifive_io_unsupported_mode_witness :
  1 <> @GPIO_ACCESS_BY_PIN zephyr_fe310 /\
  call (@gpio_sifive_write zephyr_fe310 1 3 1) (world_of gpio_zero 0)
  = (- @ENOTSUP zephyr_fe310, world_of gpio_zero 0).
Proof.
  assert (H1 : 1 <> @GPIO_ACCESS_BY_PIN zephyr_fe310) by (cbn; lia).
  split; [ exact H1 | ].
  exact (proj1 (@gpio_sifive_io_unsupported_mode zephyr_fe310
                  (world_of gpio_zero 0) 1 3 1 H1)).
Defined.

Lemma gpio_sifive_config_status_witness :
  3 < @SIFIVE_PINMUX_PINS zephyr_fe310 /\
  fst (call (@gpio_sifive_config zephyr_fe310 (@GPIO_ACCESS_BY_PIN zephyr_fe310)
               3 128) (world_of gpio_zero 0))
  = fst (call (@gpio_sifive_config zephyr_fe310
                 (@GPIO_ACCESS_BY_PIN zephyr_fe310) 3 128)
           (world_of gpio_rise_pending_3 0)).
Proof.
  assert (H1 : 3 < @SIFIVE_PINMUX_PINS zephyr_fe310) by (cbn; lia).
  split; [ exact H1 | ].
  exact (proj1 (@gpio_sifive_config_status zephyr_fe310 (world_of gpio_zero 0)
                  (world_of gpio_rise_pending_3 0) 3 128 H1)).
Defined.

Lemma gpio_sifive_config_polarity_and_pull_witness :
  let res := call (@gpio_sifive_config zephyr_fe310
                     (@GPIO_ACCESS_BY_PIN zephyr_fe310) 3 256)
               (world_of gpio_zero 0) in
  fst res = 0 /\
  pin_bit (pue (gpio (snd res))) 3
  = (Z.land 256 (@GPIO_PUD_MASK zephyr_fe310) =? @GPIO_PUD_PULL_UP zephyr_fe310).
Proof.
  intros res.
  assert (Hrc : fst res = 0) by (vm_compute; reflexivity).
  split; [ exact Hrc | ].
  refine (proj2 (@gpio_sifive_config_polarity_and_pull zephyr_fe310
                   (world_of gpio_zero 0) 3 256 _ _ _ Hrc) _).
  all: first [ cbn; lia | vm_compute; reflexivity ].
Defined.

Lemma gpio_sifive_config_idempotent_witness :
  let once := call (@gpio_sifive_config zephyr_fe310 0 3 98)
                (world_of gpio_zero 0) in
  let twice := call (@gpio_sifive_config zephyr_fe310 0 3 98) (snd once) in
  0 <= 3 /\ gpio (snd twice) = gpio (snd once).
Proof.
  intros once twice.
  assert (H1 : 0 <= 3) by lia.
  split; [ exact H1 | ].
  exact (proj2 (@gpio_sifive_config_idempotent zephyr_fe310
                  (world_of gpio_zero 0) 0 3 98 H1)).
Defined.

Lemma gpio_sifive_output_round_trip_witness :
  let w1 := snd (call (@gpio_sifive_config zephyr_fe310
                         (@GPIO_ACCESS_BY_PIN zephyr_fe310) 3 1)
                   (world_of gpio_zero 0)) in
  let written := call (@gpio_sifive_write zephyr_fe310
                         (@GPIO_ACCESS_BY_PIN zephyr_fe310) 3 5) w1 in
  let got := call (@gpio_sifive_read zephyr_fe310
                     (@GPIO_ACCESS_BY_PIN zephyr_fe310) 3 0) (snd written) in
  @dir_out zephyr_fe310 1 = true /\ fst got = (0, Z.b2z (nz 5)).
Proof.
  intros w1 written got.
  assert (Hd : @dir_out zephyr_fe310 1 = true) by reflexivity.
  split; [ exact Hd | ].
  refine (proj2 (@gpio_sifive_output_round_trip zephyr_fe310
                   (world_of gpio_zero 0) 3 1 5 0 _ _ Hd)).
  all: cbn; lia.
Defined.

Lemma gpio_sifive_input_refuses_write_witness :
  let w1 := snd (call (@gpio_sifive_config zephyr_fe310
                         (@GPIO_ACCESS_BY_PIN zephyr_fe310) 3 0)
                   (world_of gpio_zero 0)) in
  @dir_out zephyr_fe310 0 = false /\
  call (@gpio_sifive_write zephyr_fe310 (@GPIO_ACCESS_BY_PIN zephyr_fe310) 3 1)
    w1
  = (- @EINVAL zephyr_fe310, w1).
Proof.
  intros w1.
  assert (Hd : @dir_out zephyr_fe310 0 = false) by reflexivity.
  split; [ exact Hd | ].
  refine (proj1 (@gpio_sifive_input_refuses_write zephyr_fe310
                   (world_of gpio_zero 0) 3 0 1 0 _ _ Hd)).
  all: cbn; lia.
Defined.

Lemma gpio_sifive_write_last_wins_witness :
  let first := call (@gpio_sifive_write zephyr_fe310
                       (@GPIO_ACCESS_BY_PIN zephyr_fe310) 3 1)
                 (world_of gpio_zero 0) in
  let second := call (@gpio_sifive_write zephyr_fe310
                        (@GPIO_ACCESS_BY_PIN zephyr_fe310) 3 0) (snd first) in
  pin_bit (in_en (gpio (world_of gpio_zero 0))) 3 = false /\
  fst first = 0 /\ fst second = 0 /\
  gpio (snd second)
  = gpio (snd (call (@gpio_sifive_write zephyr_fe310
                       (@GPIO_ACCESS_BY_PIN zephyr_fe310) 3 0)
                 (world_of gpio_zero 0))).
Proof.
  intros first second.
  assert (He : pin_bit (in_en (gpio (world_of gpio_zero 0))) 3 = false)
    by reflexivity.
  split; [ exact He | ].
  refine (@gpio_sifive_write_last_wins zephyr_fe310 (world_of gpio_zero 0)
            3 1 0 _ He).
  cbn; lia.
Defined.

Lemma gpio_sifive_write_keeps_other_reads_witness :
  3 <> 4 /\
  fst (call (@gpio_sifive_read zephyr_fe310 (@GPIO_ACCESS_BY_PIN zephyr_fe310)
               4 0)
         (snd (call (@gpio_sifive_write zephyr_fe310
                       (@GPIO_ACCESS_BY_PIN zephyr_fe310) 3 1)
                 (world_of gpio_zero 0))))
  = fst (call (@gpio_sifive_read zephyr_fe310
                 (@GPIO_ACCESS_BY_PIN zephyr_fe310) 4 0)
           (world_of gpio_zero 0)).
Proof.
  assert (Hne : 3 <> 4) by lia.
  split; [ exact Hne | ].
  refine (@gpio_sifive_write_keeps_other_reads zephyr_fe310
            (world_of gpio_zero 0) 3 4 1 0 _ _ _ Hne).
  all: cbn; lia.
Defined.

Lemma gpio_sifive_init_config_others_witness :
  let w1 := snd (call (gpio_sifive_init
                         (@gpio_sifive_0 zephyr_fe310
                            {| cb := sample_callbacks |}))
                   (world_of gpio_rise_pending_3 0)) in
  let w2 := snd (call (@gpio_sifive_config zephyr_fe310
                         (@GPIO_ACCESS_BY_PIN zephyr_fe310) 3 98) w1) in
  0 <= 3 < @SIFIVE_PINMUX_PINS zephyr_fe310 /\
  pin_bit (load IN_EN (gpio w2)) 4 = false.
Proof.
  intros w1 w2.
  assert (H3 : 0 <= 3 < @SIFIVE_PINMUX_PINS zephyr_fe310) by (cbn; lia).
  split; [ exact H3 | ].
  refine (proj1 (@gpio_sifive_init_config_others zephyr_fe310
                   {| cb := sample_callbacks |}
                   (world_of gpio_rise_pending_3 0) 3 98 _ H3)
            IN_EN 4 _ _ _).
  - cbn; lia.
  - left; reflexivity.
  - lia.
  - lia.
Defined.

Lemma gpio_sifive_irq_handler_frame_witness :
  let dev := @gpio_sifive_0 zephyr_fe310 {| cb := sample_callbacks |} in
  let w := world_of gpio_rise_pending_3 10 in
  let w' := snd (call (@gpio_sifive_irq_handler zephyr_fe310 dev) w) in
  plic_irq w - (gpio_irq_base (config_info dev)
                - @RISCV_MAX_GENERIC_IRQ zephyr_fe310) = 3 /\
  forall r, is_pending r = false -> load r (gpio w') = load r (gpio w).
Proof.
  intros dev w w'.
  assert (H4 : plic_irq w - (gpio_irq_base (config_info dev)
                 - @RISCV_MAX_GENERIC_IRQ zephyr_fe310) = 3) by reflexivity.
  split; [ exact H4 | ].
  refine (proj1 (@gpio_sifive_irq_handler_frame zephyr_fe310 dev w 3 _ _ H4
                   sample_callbacks_quiet)).
  all: cbn; lia.
Defined.

Lemma gpio_sifive_irq_handler_drains_witness :
  let dev := @gpio_sifive_0 zephyr_fe310 {| cb := sample_callbacks |} in
  let w := world_of gpio_rise_fall_pending_3 10 in
  let w1 := snd (call (@gpio_sifive_irq_handler zephyr_fe310 dev) w) in
  let w2 := snd (call (@gpio_sifive_irq_handler zephyr_fe310 dev) w1) in
  (pin_bit (rise_ip (gpio w)) 3 = true /\ pin_bit (fall_ip (gpio w)) 3 = true) /\
  stores (trace w2) = stores (trace w) ++ [(RISE_IP, BIT 3); (FALL_IP, BIT 3)].
Proof.
  intros dev w w1 w2.
  assert (Hr : pin_bit (rise_ip (gpio w)) 3 = true) by reflexivity.
  assert (Hf : pin_bit (fall_ip (gpio w)) 3 = true) by reflexivity.
  split; [ split; assumption | ].
  refine (proj2 (proj2 (proj2 (proj2
    (@gpio_sifive_irq_handler_drains zephyr_fe310 dev w 3 _ _ _
       sample_callbacks_quiet Hr Hf))))).
  - cbn; lia.
  - cbn; lia.
  - reflexivity.
Defined.

Lemma gpio_sifive_config_commute_witness :
  let cfg pin flags :=
    call (@gpio_sifive_config zephyr_fe310 (@GPIO_ACCESS_BY_PIN zephyr_fe310)
            pin flags) in
  3 <> 4 /\
  gpio (snd (cfg 4 1 (snd (cfg 3 98 (world_of gpio_zero 0)))))
  = gpio (snd (cfg 3 98 (snd (cfg 4 1 (world_of gpio_zero 0))))).
Proof.
  intros cfg.
  assert (Hne : 3 <> 4) by lia.
  split; [ exact Hne | ].
  refine (proj2 (proj2 (@gpio_sifive_config_commute zephyr_fe310
                          (world_of gpio_zero 0) 3 4 98 1 _ _ Hne))).
  all: cbn; lia.
Defined.

Lemma gpio_sifive_config_other_regs_witness :
  In OUT_VAL other_regs /\
  load OUT_VAL (gpio (snd (call (@gpio_sifive_config zephyr_fe310 0 3 98)
                             (world_of gpio_rise_pending_3 0))))
  = load OUT_VAL (gpio (world_of gpio_rise_pending_3 0)).
Proof.
  assert (Hr : In OUT_VAL other_regs) by (right; left; reflexivity).
  split; [ exact Hr | ].
  exact (@gpio_sifive_config_other_regs zephyr_fe310
           (world_of gpio_rise_pending_3 0) 0 3 98 OUT_VAL Hr).
Defined.
